(** * A proof-of-work ledger node (decentralized-blockchain-nodejs/index.js)

    Shallow embedding of the [Block] and [Blockchain] classes and of the
    [/api/receive-block] and [/api/resolve] handlers, followed by the
    properties of the ledger and consensus engine.

    Conventions of the embedding
    - JavaScript numbers are modelled by [Z]: the block fields [index],
      [timestamp], [nonce] and [difficulty] are integers, as every block the
      node itself produces has them. The model is exact for integers below
      2^53 in absolute value, which JavaScript holds and prints exactly.
    - JavaScript strings are modelled by [string], read as the UTF-8 bytes
      that [crypto] hashes.
    - The [data] of a block is a JSON value, as the request body gives it.
    - [crypto.createHash] with sha256 is SHA-256, written out below.
    - [Date.now()] is an input ([now]) of the operations that read the clock.
    - [save] writes the chain to the data file; the state records what was
      last written. A failing write is not modelled.
    - Exceptions are results: a call returns [Ret v] or [Throw e].
    - The nonce search of [proofOfWork] has no bound in the source; it is
      given a [fuel], and the operations that mine answer [Done r] with the
      result [r], or [OutOfFuel] when the fuel is spent first.
    - The handlers run to completion once their peers have answered: the
      answers of the peers are an input of [resolve]. *)

From Stdlib Require Import ZArith String Ascii Bool Lia.
From Stdlib Require Import Decimal DecimalPos DecimalZ.
From stdpp Require Import base list.
Import ListNotations.
Open Scope Z_scope.

(** ** SHA-256 (FIPS 180-4), the digest behind [crypto.createHash] *)

Module SHA256.

Definition mask32 : Z := 0xffffffff.
Definition add32 (a b : Z) : Z := Z.land (a + b) mask32.
Definition rotr (n x : Z) : Z :=
  Z.lor (Z.shiftr x n) (Z.land (Z.shiftl x (32 - n)) mask32).
Definition not32 (x : Z) : Z := Z.lxor x mask32.

Definition Ch (x y z : Z) : Z := Z.lxor (Z.land x y) (Z.land (not32 x) z).
Definition Maj (x y z : Z) : Z :=
  Z.lxor (Z.lxor (Z.land x y) (Z.land x z)) (Z.land y z).
Definition Sigma0 (x : Z) : Z :=
  Z.lxor (Z.lxor (rotr 2 x) (rotr 13 x)) (rotr 22 x).
Definition Sigma1 (x : Z) : Z :=
  Z.lxor (Z.lxor (rotr 6 x) (rotr 11 x)) (rotr 25 x).
Definition sigma0 (x : Z) : Z :=
  Z.lxor (Z.lxor (rotr 7 x) (rotr 18 x)) (Z.shiftr x 3).
Definition sigma1 (x : Z) : Z :=
  Z.lxor (Z.lxor (rotr 17 x) (rotr 19 x)) (Z.shiftr x 10).

(** The round constants are the first 32 bits of the fractional parts of
    the cube roots of the first 64 primes; the initial hash value, of the
    square roots of the first 8. *)
Definition primes : list Z :=
  [2; 3; 5; 7; 11; 13; 17; 19; 23; 29; 31; 37; 41; 43; 47; 53; 59; 61; 67;
   71; 73; 79; 83; 89; 97; 101; 103; 107; 109; 113; 127; 131; 137; 139; 149;
   151; 157; 163; 167; 173; 179; 181; 191; 193; 197; 199; 211; 223; 227;
   229; 233; 239; 241; 251; 257; 263; 269; 271; 277; 281; 283; 293; 307;
   311].

(** Integer cube root, one bit at a time from bit [n - 1] down. *)
Fixpoint cube_root_bits (n : nat) (x r : Z) : Z :=
  match n with
  | O => r
  | S k =>
      let r' := r + 2 ^ Z.of_nat k in
      if r' * r' * r' <=? x then cube_root_bits k x r'
      else cube_root_bits k x r
  end.

Definition K : list Z :=
  Eval vm_compute in
    map (fun p => Z.land (cube_root_bits 40 (p * 2 ^ 96) 0) mask32) primes.

Definition H0 : list Z :=
  Eval vm_compute in
    map (fun p => Z.land (Z.sqrt (p * 2 ^ 64)) mask32) (firstn 8 primes).

(** Padding: the byte 0x80, zero bytes up to 56 modulo 64, then the length
    in bits on eight bytes, most significant first. *)
Definition be_bytes (n : nat) (x : Z) : list Z :=
  map (fun i => Z.land (Z.shiftr x (8 * Z.of_nat i)) 0xff) (rev (seq 0 n)).

Definition pad (msg : list Z) : list Z :=
  let len := Z.of_nat (length msg) in
  msg ++ [0x80] ++ repeat 0 (Z.to_nat ((55 - len) mod 64))
      ++ be_bytes 8 (8 * len).

Fixpoint words (bs : list Z) : list Z :=
  match bs with
  | b0 :: b1 :: b2 :: b3 :: r =>
      Z.lor (Z.shiftl b0 24)
        (Z.lor (Z.shiftl b1 16) (Z.lor (Z.shiftl b2 8) b3)) :: words r
  | _ => []
  end.

(** Message schedule: [w] is the window of the last 16 words, oldest
    first; each step emits the oldest word and appends the next one. *)
Fixpoint schedule (n : nat) (w : list Z) : list Z :=
  match n with
  | O => []
  | S n' =>
      match w with
      | [] => []
      | w0 :: r =>
          let nxt := add32 (add32 (sigma1 (nth 14 w 0)) (nth 9 w 0))
                           (add32 (sigma0 (nth 1 w 0)) w0) in
          w0 :: schedule n' (r ++ [nxt])
      end
  end.

Definition round (s : list Z) (kw : Z * Z) : list Z :=
  match s with
  | [a; b; c; d; e; f; g; h] =>
      let t1 := add32 (add32 (add32 h (Sigma1 e))
                             (add32 (Ch e f g) (fst kw))) (snd kw) in
      let t2 := add32 (Sigma0 a) (Maj a b c) in
      [add32 t1 t2; a; b; c; add32 d t1; e; f; g]
  | _ => s
  end.

Definition compress (h : list Z) (block : list Z) : list Z :=
  let s := fold_left round (combine K (schedule 64 block)) h in
  map (fun p => add32 (fst p) (snd p)) (combine h s).

Fixpoint blocks (n : nat) (h : list Z) (ws : list Z) : list Z :=
  match n with
  | O => h
  | S n' =>
      match ws with
      | [] => h
      | _ => blocks n' (compress h (firstn 16 ws)) (skipn 16 ws)
      end
  end.

Definition digest (msg : list Z) : list Z :=
  let ws := words (pad msg) in
  blocks (length ws) H0 ws.

Definition hexdigit (x : Z) : ascii :=
  ascii_of_N (Z.to_N (if x <? 10 then 48 + x else 87 + x)).

Definition hex32 (x : Z) : list ascii :=
  map (fun i => hexdigit (Z.land (Z.shiftr x (4 * Z.of_nat i)) 0xf))
      (rev (seq 0 8)).

Definition hexdigest (msg : list ascii) : list ascii :=
  flat_map hex32 (digest (map (fun c => Z.of_N (N_of_ascii c)) msg)).

End SHA256.

(** [crypto.createHash(sha256).update(payload).digest(hex)] *)
Definition sha256_hex (payload : list ascii) : string :=
  string_of_list_ascii (SHA256.hexdigest payload).

(** ** JSON values and [JSON.stringify] *)

#[warnings="-register-all"]
Inductive JSON : Type :=
  | JNull
  | JBool (b : bool)
  | JNum (n : Z)
  | JStr (s : string)
  | JArr (items : list JSON)
  | JObj (members : list (string * JSON)).

Definition chars (s : string) : list ascii := list_ascii_of_string s.

Definition dquote : ascii := "034".

Fixpoint digits (u : Decimal.uint) : list ascii :=
  match u with
  | Nil => []
  | D0 r => "0"%char :: digits r
  | D1 r => "1"%char :: digits r
  | D2 r => "2"%char :: digits r
  | D3 r => "3"%char :: digits r
  | D4 r => "4"%char :: digits r
  | D5 r => "5"%char :: digits r
  | D6 r => "6"%char :: digits r
  | D7 r => "7"%char :: digits r
  | D8 r => "8"%char :: digits r
  | D9 r => "9"%char :: digits r
  end.

(** Number::toString on an integer: decimal digits, a minus sign first for
    a negative one. *)
Definition number_to_string (n : Z) : list ascii :=
  match Z.to_int n with
  | Decimal.Pos u => digits u
  | Decimal.Neg u => "-"%char :: digits u
  end.

(** QuoteJSONString: the quote and the backslash are escaped, the control
    characters have a short escape or a \u00XX one, the rest is copied. *)
Definition escape_char (c : ascii) : list ascii :=
  match N_of_ascii c with
  | 34%N => ["\"%char; dquote]
  | 92%N => ["\"%char; "\"%char]
  | 8%N => ["\"%char; "b"%char]
  | 9%N => ["\"%char; "t"%char]
  | 10%N => ["\"%char; "n"%char]
  | 12%N => ["\"%char; "f"%char]
  | 13%N => ["\"%char; "r"%char]
  | n =>
      if (n <? 32)%N
      then chars "\u00" ++ [SHA256.hexdigit (Z.of_N (n / 16));
                            SHA256.hexdigit (Z.of_N (n mod 16))]
      else [c]
  end.

Definition quote (s : string) : list ascii :=
  dquote :: flat_map escape_char (chars s) ++ [dquote].

Fixpoint join (sep : ascii) (parts : list (list ascii)) : list ascii :=
  match parts with
  | [] => []
  | p :: rest =>
      match rest with
      | [] => p
      | _ => p ++ sep :: join sep rest
      end
  end.

Fixpoint stringify (v : JSON) : list ascii :=
  match v with
  | JNull => chars "null"
  | JBool true => chars "true"
  | JBool false => chars "false"
  | JNum n => number_to_string n
  | JStr s => quote s
  | JArr items => "["%char :: join "," (map stringify items) ++ ["]"%char]
  | JObj members =>
      "{"%char
        :: join ","
             (map (fun kv => quote (fst kv) ++ ":"%char :: stringify (snd kv))
                  members)
        ++ ["}"%char]
  end.

(** ** Results of a call: a value or an exception *)

Inductive exn : Type :=
  | RangeError
  | TypeError
  | Error (msg : string).

Inductive result (A : Type) : Type :=
  | Ret (a : A)
  | Throw (e : exn).
Arguments Ret {A} a.
Arguments Throw {A} e.

Definition bind {A B : Type} (m : result A) (k : A -> result B) : result B :=
  match m with
  | Ret a => k a
  | Throw e => Throw e
  end.

Notation "'let*' x := m 'in' k" := (bind m (fun x => k))
  (at level 10, x pattern, m at level 100, k at level 200).

(** The outcome of an operation that searches for a nonce. *)
Inductive outcome (A : Type) : Type :=
  | Done (r : result A)
  | OutOfFuel.
Arguments Done {A} r.
Arguments OutOfFuel {A}.

Definition bind_fuel {A B : Type} (m : outcome A) (k : A -> outcome B)
    : outcome B :=
  match m with
  | Done (Ret a) => k a
  | Done (Throw e) => Done (Throw e)
  | OutOfFuel => OutOfFuel
  end.

Notation "'let+' x := m 'in' k" := (bind_fuel m (fun x => k))
  (at level 10, x pattern, m at level 100, k at level 200).

(** ** Blocks *)

Record Block : Type := mkBlock {
  index : Z;
  timestamp : Z;
  data : JSON;
  prevHash : string;
  nonce : Z;
  difficulty : Z;
  hash : string
}.

(** [String.prototype.repeat]: a negative count raises RangeError. The
    bound that an engine puts on the length of a string is not modelled. *)
Fixpoint repeat_string (s : string) (n : nat) : string :=
  match n with
  | O => EmptyString
  | S n' => s ++ repeat_string s n'
  end.

Definition String_repeat (s : string) (count : Z) : result string :=
  if count <? 0 then Throw RangeError
  else Ret (repeat_string s (Z.to_nat count)).

(** [String.prototype.startsWith], from position 0. *)
Fixpoint startsWith (s target : string) {struct target} : bool :=
  match target with
  | EmptyString => true
  | String t target' =>
      match s with
      | EmptyString => false
      | String c s' => Ascii.eqb c t && startsWith s' target'
      end
  end.

(** ** The Blockchain class *)

Record Blockchain : Type := mkBlockchain {
  chain : list Block;
  defaultDifficulty : Z;
  dbFile : list Block        (* what the last [save] wrote *)
}.

Definition save (bc : Blockchain) : Blockchain :=
  {| chain := chain bc;
     defaultDifficulty := defaultDifficulty bc;
     dbFile := chain bc |}.

Definition push (b : Block) (bc : Blockchain) : Blockchain :=
  {| chain := chain bc ++ [b];
     defaultDifficulty := defaultDifficulty bc;
     dbFile := dbFile bc |}.

Definition set_chain (c : list Block) (bc : Blockchain) : Blockchain :=
  {| chain := c;
     defaultDifficulty := defaultDifficulty bc;
     dbFile := dbFile bc |}.

Definition calculateHash (index timestamp : Z) (data : JSON)
    (prevHash : string) (nonce difficulty : Z) : string :=
  let payload :=
    stringify (JObj [("index"%string, JNum index);
                     ("timestamp"%string, JNum timestamp);
                     ("data"%string, data);
                     ("prevHash"%string, JStr prevHash);
                     ("nonce"%string, JNum nonce);
                     ("difficulty"%string, JNum difficulty)]) in
  sha256_hex payload.

(** [calculateHash(newBlock)]: the six fields of a block, its [hash] left
    out by the destructuring. *)
Definition calculateHash_of (b : Block) : string :=
  calculateHash (index b) (timestamp b) (data b) (prevHash b) (nonce b)
                (difficulty b).

Fixpoint proofOfWork_loop (fuel : nat) (index timestamp : Z) (data : JSON)
    (prevHash : string) (difficulty : Z) (target : string) (nonce : Z)
    : outcome (Z * string) :=
  match fuel with
  | O => OutOfFuel
  | S fuel' =>
      let hash :=
        calculateHash index timestamp data prevHash nonce difficulty in
      if startsWith hash target then Done (Ret (nonce, hash))
      else proofOfWork_loop fuel' index timestamp data prevHash difficulty
                            target (nonce + 1)
  end.

Definition proofOfWork (fuel : nat) (index timestamp : Z) (data : JSON)
    (prevHash : string) (difficulty : Z) : outcome (Z * string) :=
  let nonce := 0 in
  let+ target := Done (String_repeat "0" difficulty) in
  proofOfWork_loop fuel index timestamp data prevHash difficulty target nonce.

Definition createGenesisBlock (fuel : nat) (now : Z) : outcome Block :=
  let data := JObj [("type"%string, JStr "GENESIS");
                    ("note"%string, JStr "Decentralized genesis")] in
  let timestamp := now in
  let prevHash := repeat_string "0" 64 in
  let difficulty := 1 in
  let+ nh := proofOfWork fuel 0 timestamp data prevHash difficulty in
  Done (Ret (mkBlock 0 timestamp data prevHash (fst nh) difficulty (snd nh))).

(** [chain[chain.length - 1]]: [None] stands for [undefined]. *)
Definition getLatestBlock (bc : Blockchain) : option Block :=
  chain bc !! (length (chain bc) - 1)%nat.

Definition isValidNewBlock (newBlock prevBlock : Block) : result bool :=
  if negb (index prevBlock + 1 =? index newBlock) then Ret false
  else if negb (hash prevBlock =? prevHash newBlock)%string then Ret false
  else
    let checkHash := calculateHash_of newBlock in
    if negb (checkHash =? hash newBlock)%string then Ret false
    else
      let* target := String_repeat "0" (difficulty newBlock) in
      if negb (startsWith (hash newBlock) target) then Ret false
      else Ret true.

(** The loop [for (let i = 1; i < chain.length; i++)], with [n] the number
    of iterations left. *)
Fixpoint isChainValid_loop (chain : list Block) (i n : nat) : result bool :=
  match n with
  | O => Ret true
  | S n' =>
      match chain !! i, chain !! (i - 1)%nat with
      | Some cur, Some prev =>
          let* ok := isValidNewBlock cur prev in
          if negb ok then Ret false
          else isChainValid_loop chain (S i) n'
      | _, _ => Throw TypeError
      end
  end.

Definition isChainValid (chain : list Block) : result bool :=
  if (length chain =? 0)%nat then Ret false
  else isChainValid_loop chain 1 (length chain - 1).

Definition setBlock (fuel : nat) (now : Z) (data : JSON) (bc : Blockchain)
    : outcome (Block * Blockchain) :=
  match getLatestBlock bc with
  | None => Done (Throw TypeError)
  | Some prev =>
      let index := index prev + 1 in
      let timestamp := now in
      let difficulty := defaultDifficulty bc in
      let+ nh := proofOfWork fuel index timestamp data (hash prev) difficulty in
      let block :=
        mkBlock index timestamp data (hash prev) (fst nh) difficulty (snd nh) in
      Done (let* ok := isValidNewBlock block prev in
            if negb ok then Throw (Error "Invalid block")
            else Ret (block, save (push block bc)))
  end.

(** The [difficulty] member of the argument of [mineBlock] is any value of
    the request body, or [undefined] ([None]) when it is absent. *)
Definition mine_difficulty (difficulty : option JSON) (bc : Blockchain) : Z :=
  match difficulty with
  | Some (JNum d) => if 0 <? d then d else defaultDifficulty bc
  | _ => defaultDifficulty bc
  end.

Definition mineBlock (fuel : nat) (now : Z) (data : JSON)
    (difficulty : option JSON) (bc : Blockchain)
    : outcome (Block * Blockchain) :=
  match getLatestBlock bc with
  | None => Done (Throw TypeError)
  | Some prev =>
      let index := index prev + 1 in
      let timestamp := now in
      let diff := mine_difficulty difficulty bc in
      let+ nh := proofOfWork fuel index timestamp data (hash prev) diff in
      let block :=
        mkBlock index timestamp data (hash prev) (fst nh) diff (snd nh) in
      Done (let* ok := isValidNewBlock block prev in
            if negb ok then Throw (Error "Invalid block after mining")
            else Ret (block, save (push block bc)))
  end.

Definition replaceChain (newChain : list Block) (bc : Blockchain)
    : result (bool * Blockchain) :=
  if (length newChain <=? length (chain bc))%nat then Ret (false, bc)
  else
    let* ok := isChainValid newChain in
    if negb ok then Ret (false, bc)
    else Ret (true, save (set_chain newChain bc)).

(** The constructor: [load], then a genesis block when nothing was loaded.
    [stored] is the content of the data file, [None] when it is missing or
    unreadable. *)
Definition load (stored : option (list Block)) : list Block :=
  match stored with
  | Some raw => raw
  | None => []
  end.

Definition new_Blockchain (fuel : nat) (now : Z) (stored : option (list Block))
    (defaultDifficulty : Z) : outcome Blockchain :=
  let bc := mkBlockchain (load stored) defaultDifficulty (load stored) in
  if (length (chain bc) =? 0)%nat then
    let+ genesis := createGenesisBlock fuel now in
    Done (Ret (save (push genesis bc)))
  else Done (Ret bc).

(** ** The node: the two handlers that change the chain *)

Inductive response : Type :=
  | Adopted (height : Z)              (* 200, adopted: true *)
  | Rejected                          (* 409, Invalid or not next *)
  | BadRequest (e : exn)              (* 400 *)
  | Resolved (replaced : bool) (len : nat)   (* 200 *)
  | ServerError (e : exn).            (* 500 *)

(** POST /api/receive-block *)
Definition receive_block (incoming : Block) (bc : Blockchain)
    : response * Blockchain :=
  match getLatestBlock bc with
  | None => (BadRequest TypeError, bc)
  | Some prev =>
      let newBlock := incoming in
      match isValidNewBlock newBlock prev with
      | Ret true =>
          let bc' := save (push newBlock bc) in
          (Adopted (match getLatestBlock bc' with
                    | Some t => index t
                    | None => 0
                    end), bc')
      | Ret false => (Rejected, bc)
      | Throw e => (BadRequest e, bc)
      end
  end.

(** POST /api/resolve: the validation written inside the handler. *)
Fixpoint candidate_loop (candidate : list Block) (i n : nat) : result bool :=
  match n with
  | O => Ret true
  | S n' =>
      match candidate !! (i - 1)%nat, candidate !! i with
      | Some prev, Some curr =>
          let calcHash := calculateHash_of curr in
          if negb (calcHash =? hash curr)%string then Ret false
          else if negb (prevHash curr =? hash prev)%string then Ret false
          else
            let* target := String_repeat "0" (difficulty curr) in
            if negb (startsWith (hash curr) target) then Ret false
            else candidate_loop candidate (S i) n'
      | _, _ => Throw TypeError
      end
  end.

(** One peer: [None] is a failed fetch or an answer without a chain. An
    exception in the validation is caught and the peer is passed over. *)
Definition resolve_peer (bestChain : list Block) (answer : option (list Block))
    : list Block :=
  match answer with
  | None => bestChain
  | Some candidate =>
      if (length bestChain <? length candidate)%nat then
        match candidate_loop candidate 1 (length candidate - 1) with
        | Ret true => candidate
        | _ => bestChain
        end
      else bestChain
  end.

Definition resolve (answers : list (option (list Block))) (bc : Blockchain)
    : response * Blockchain :=
  let bestChain := fold_left resolve_peer answers (chain bc) in
  match replaceChain bestChain bc with
  | Ret (replaced, bc') => (Resolved replaced (length (chain bc')), bc')
  | Throw e => (ServerError e, bc)
  end.


(** ** Looking blocks up *)

(** [getBlock(key)]: the key is any value, [None] for [undefined]; the
    answer [None] is [null]. *)
Definition getBlock (key : option JSON) (bc : Blockchain) : option Block :=
  match key with
  | Some (JNum n) => find (fun b => index b =? n) (chain bc)
  | Some (JStr s) => find (fun b => (hash b =? s)%string) (chain bc)
  | _ => None
  end.

(** GET /api/health: the height it reports; the handler does not catch. *)
Definition health_height (bc : Blockchain) : result Z :=
  match getLatestBlock bc with
  | Some t => Ret (index t)
  | None => Throw TypeError
  end.

(** GET /api/blocks: the validity flag, the length and the chain. *)
Definition get_blocks (bc : Blockchain) : result (bool * nat * list Block) :=
  let* valid := isChainValid (chain bc) in
  Ret (valid, length (chain bc), chain bc).

(** ** Mining on request and gossip *)

(** A member of a request body, [None] when the body is no object or has
    no such key. The list of an object holds its keys once each. *)
Fixpoint member (key : string) (members : list (string * JSON))
    : option JSON :=
  match members with
  | [] => None
  | (k, v) :: rest => if (k =? key)%string then Some v else member key rest
  end.

Definition body_member (key : string) (body : JSON) : option JSON :=
  match body with
  | JObj members => member key members
  | _ => None
  end.

Inductive mine_response : Type :=
  | Created (block : Block)           (* 201 *)
  | MineFailed (e : exn).             (* 400 *)

(** POST /api/mine, up to the broadcast, which leaves the node as it is. *)
Definition post_mine (fuel : nat) (now : Z) (body : JSON) (bc : Blockchain)
    : outcome (mine_response * Blockchain) :=
  let data :=
    match body_member "data" body with
    | Some v => v
    | None => JNull
    end in
  let difficulty := body_member "difficulty" body in
  match mineBlock fuel now data difficulty bc with
  | Done (Ret (block, bc')) => Done (Ret (Created block, bc'))
  | Done (Throw e) => Done (Ret (MineFailed e, bc))
  | OutOfFuel => OutOfFuel
  end.

(** [broadcastNewBlock]: every peer gets the block on its receive handler;
    a peer that cannot be reached ([None]) is passed over. Each entry of
    the network is a node of its own that runs this program. *)
Definition deliver (block : Block) (peer : option Blockchain)
    : option Blockchain :=
  match peer with
  | Some bc => Some (snd (receive_block block bc))
  | None => None
  end.

Definition broadcastNewBlock (block : Block) (network : list (option Blockchain))
    : list (option Blockchain) :=
  map (deliver block) network.

(** ** The list of peers *)

Fixpoint all_slashes (s : string) : bool :=
  match s with
  | EmptyString => true
  | String c r => Ascii.eqb c "/" && all_slashes r
  end.

(** The pattern of [normalizePeerUrl], one slash or more and then the end
    of the text, tried at the start of [s]. *)
Definition slashes_to_end (s : string) : bool :=
  match s with
  | EmptyString => false
  | String c r => Ascii.eqb c "/" && all_slashes r
  end.

(** [url.replace] with that pattern and the empty text: the pattern is
    tried at each position from the left, and the first match is cut out. *)
Fixpoint normalizePeerUrl (url : string) : string :=
  if slashes_to_end url then EmptyString
  else
    match url with
    | EmptyString => EmptyString
    | String c r => String c (normalizePeerUrl r)
    end.

(** [String.prototype.endsWith]: some tail of [s] is [suffix]. *)
Fixpoint endsWith (s suffix : string) : bool :=
  (s =? suffix)%string ||
  match s with
  | EmptyString => false
  | String _ r => endsWith r suffix
  end.

(** [peers.includes(url)] *)
Definition includes (l : list string) (url : string) : bool :=
  existsb (String.eqb url) l.

(** The text [:PORT] of the template in the handler. *)
Definition port_suffix (PORT : Z) : string :=
  String ":" (string_of_list_ascii (number_to_string PORT)).

Record PeerBook : Type := mkPeerBook {
  peers : list string;
  peersFile : list string     (* what the last [savePeers] wrote *)
}.

Definition savePeers (pb : PeerBook) : PeerBook :=
  {| peers := peers pb; peersFile := peers pb |}.

(** The loop of POST /api/peers over the entries of the body. An entry
    that is no string has no [replace]: the loop ends in a TypeError, the
    peers pushed so far stay in the list. *)
Fixpoint peers_loop (PORT : Z) (bodyPeers : list JSON) (known : list string)
    (added : nat) : list string * result nat :=
  match bodyPeers with
  | [] => (known, Ret added)
  | JStr p :: rest =>
      let url := normalizePeerUrl p in
      if negb (url =? "")%string && negb (includes known url)
         && negb (endsWith url (port_suffix PORT))
      then peers_loop PORT rest (known ++ [url]) (S added)
      else peers_loop PORT rest known added
  | _ :: _ => (known, Throw TypeError)
  end.

Inductive peers_response : Type :=
  | PeersAdded (added : nat) (peers : list string)   (* 200 *)
  | PeersUncaught (e : exn).                         (* left to express *)

(** POST /api/peers *)
Definition post_peers (PORT : Z) (body : JSON) (pb : PeerBook)
    : peers_response * PeerBook :=
  let bodyPeers :=
    match body_member "peers" body with
    | Some (JArr items) => items
    | _ => []
    end in
  match peers_loop PORT bodyPeers (peers pb) 0 with
  | (known, Ret added) =>
      let pb' := savePeers (mkPeerBook known (peersFile pb)) in
      (PeersAdded added (peers pb'), pb')
  | (known, Throw e) =>
      (PeersUncaught e, mkPeerBook known (peersFile pb))
  end.
(** * Specification vocabulary *)

(** The number of leading zero characters of a digest. *)
Fixpoint leading_zeros (s : string) : nat :=
  match s with
  | String c r => if Ascii.eqb c "0" then S (leading_zeros r) else O
  | EmptyString => O
  end.

(** The four conditions of a valid successor: index, link, digest and
    proof-of-work target. *)
Definition successor_conditions (c p : Block) : Prop :=
  index c = index p + 1 /\
  prevHash c = hash p /\
  calculateHash_of c = hash c /\
  difficulty c <= Z.of_nat (leading_zeros (hash c)).


(** Every block from index 1 onward is a valid successor of the block
    before it. *)
Definition adjacent_pairs_valid (s : list Block) : Prop :=
  forall i c p, (1 <= i)%nat -> s !! i = Some c -> s !! (i - 1)%nat = Some p ->
                isValidNewBlock c p = Ret true.

(** The digest of the fields with this nonce has at least [difficulty]
    leading zero characters. *)
Definition meets_target (index timestamp : Z) (data : JSON) (prevHash : string)
    (difficulty nonce : Z) : Prop :=
  difficulty
  <= Z.of_nat
       (leading_zeros
          (calculateHash index timestamp data prevHash nonce difficulty)).

(** The test of the nonce search at one nonce. *)
Definition nonce_found (index timestamp : Z) (data : JSON) (prevHash : string)
    (difficulty : Z) (target : string) (nonce : Z) : bool :=
  startsWith (calculateHash index timestamp data prevHash nonce difficulty)
             target.

(** Blocks carry their position as index, and each block names the hash of
    the block before it. *)
Definition indices_in_order (s : list Block) : Prop :=
  forall i b, s !! i = Some b -> index b = Z.of_nat i.

Definition linked (s : list Block) : Prop :=
  forall i b p, (1 <= i)%nat -> s !! i = Some b -> s !! (i - 1)%nat = Some p ->
                prevHash b = hash p.

(** A call of one of the two append operations, and a run of such calls
    that stops at the first one that does not return. *)
Inductive append_call : Type :=
  | CallSetBlock (fuel : nat) (now : Z) (data : JSON)
  | CallMineBlock (fuel : nat) (now : Z) (data : JSON)
                  (difficulty : option JSON).

Definition append (c : append_call) (bc : Blockchain) : outcome Blockchain :=
  match c with
  | CallSetBlock fuel now data =>
      let+ r := setBlock fuel now data bc in Done (Ret (snd r))
  | CallMineBlock fuel now data difficulty =>
      let+ r := mineBlock fuel now data difficulty bc in Done (Ret (snd r))
  end.

Fixpoint appends (cs : list append_call) (bc : Blockchain)
    : outcome Blockchain :=
  match cs with
  | [] => Done (Ret bc)
  | c :: cs' => let+ bc' := append c bc in appends cs' bc'
  end.

(** The test that the validation inside the resolve handler applies to one
    pair of neighbours, and the candidates that pass it. *)
Definition resolve_pair (prev curr : Block) : result bool :=
  if negb (calculateHash_of curr =? hash curr)%string then Ret false
  else if negb (prevHash curr =? hash prev)%string then Ret false
  else
    let* target := String_repeat "0" (difficulty curr) in
    if negb (startsWith (hash curr) target) then Ret false else Ret true.

Definition passes_resolve_check (candidate : list Block) : Prop :=
  candidate_loop candidate 1 (length candidate - 1) = Ret true.

(** ** Reading a serialization back

    What the proof that [JSON.stringify] loses nothing needs: the decoding
    of one escaped character, the characters that end a value, and the kind
    of value that a first character announces. *)










(** ** Sample blocks *)

Definition genesis0 : Block :=
  mkBlock 0 1700000000000
    (JObj [("type"%string, JStr "GENESIS");
           ("note"%string, JStr "Decentralized genesis")])
    "0000000000000000000000000000000000000000000000000000000000000000"
    18 1
    "00a5ba28eac0d156d5b0bacb16d22991de11f10bae73d80c424fdd2919162b3e".

Definition block1 : Block :=
  mkBlock 1 1700000000001 (JObj [("msg"%string, JStr "a")])
    "00a5ba28eac0d156d5b0bacb16d22991de11f10bae73d80c424fdd2919162b3e"
    68 1
    "0583c79953c4431fd65db62b088e6db0ff5bc6d68e4ec02b2077b56fe59d11f0".

Definition block2 : Block :=
  mkBlock 2 1700000000002 (JObj [("msg"%string, JStr "b")])
    "0583c79953c4431fd65db62b088e6db0ff5bc6d68e4ec02b2077b56fe59d11f0"
    14 1
    "0a3565c0b2a7c443b3d46f2695dfc12492635acc647682b4ef239f8b4e4bfed4".

(** A third block that links to [block1] and hashes to its [hash], with
    index 5 where 2 is due. *)
Definition stray2 : Block :=
  mkBlock 5 1700000000003 (JObj [("msg"%string, JStr "x")])
    "0583c79953c4431fd65db62b088e6db0ff5bc6d68e4ec02b2077b56fe59d11f0"
    0 0
    "35a11c55fbbcba92e08f9f3566e6d3c53dcca4d7f320c256a41cde980575bde6".

(** A successor of [genesis0] whose difficulty is -1. *)
Definition negative1 : Block :=
  mkBlock 1 1700000000001 JNull
    "00a5ba28eac0d156d5b0bacb16d22991de11f10bae73d80c424fdd2919162b3e"
    0 (-1)
    "c85ad069fa08f29996edde23f3d1fd10bf3dc7670d577bfe72f22e5bb00c2540".

(** A successor of [genesis0] whose difficulty is 0. *)
Definition easy1 : Block :=
  mkBlock 1 1700000000001 JNull
    "00a5ba28eac0d156d5b0bacb16d22991de11f10bae73d80c424fdd2919162b3e"
    0 0
    "458ff651ca1e9d55f4845cccd4d230c8e95c159fbd672635d7fc88ebebc3f2c1".

(** The node after its constructor ran at time 1700000000000 with no data
    file, default difficulty 3. *)
Definition node0 : Blockchain := mkBlockchain [genesis0] 3 [genesis0].


(** Two chains of three blocks that peers may serve: [good3] was mined
    block by block from [node0]; [shadow3] ends in [stray2]. *)
Definition good3 : list Block := [genesis0; block1; block2].
Definition shadow3 : list Block := [genesis0; block1; stray2].

Definition node2 : Blockchain := mkBlockchain good3 3 good3.


(** ** Vocabulary for the list of peers *)

Definition is_string (v : JSON) : Prop := exists s, v = JStr s.

(** The array that POST /api/peers reads from a body, empty when the body
    has none. *)
Definition body_peers (body : JSON) : list JSON :=
  match body_member "peers" body with
  | Some (JArr items) => items
  | _ => []
  end.

(** ** Vocabulary for digests and mining *)

(** A digit or a letter from a to f. *)
Definition is_hex (c : ascii) : bool :=
  let n := N_of_ascii c in
  ((48 <=? n) && (n <=? 57) || (97 <=? n) && (n <=? 102))%N.

Fixpoint all_hex (s : string) : bool :=
  match s with
  | EmptyString => true
  | String c r => is_hex c && all_hex r
  end.


(** ** The operations that change the ledger *)

Inductive operation : Type :=
  | OpMine (fuel : nat) (now : Z) (body : JSON)       (* POST /api/mine *)
  | OpReceive (incoming : Block)             (* POST /api/receive-block *)
  | OpResolve (answers : list (option (list Block)))
                                             (* POST /api/resolve *)
  | OpSetBlock (fuel : nat) (now : Z) (data : JSON)   (* setBlock(data) *)
  | OpReplaceChain (newChain : list Block).  (* replaceChain(newChain) *)

(** The ledger once an operation is over, whether it returned or raised;
    [None] when the operation is still mining as the fuel runs out. *)
Definition after (op : operation) (bc : Blockchain) : option Blockchain :=
  match op with
  | OpMine fuel now body =>
      match post_mine fuel now body bc with
      | Done (Ret (_, bc')) => Some bc'
      | Done (Throw _) => Some bc
      | OutOfFuel => None
      end
  | OpReceive incoming => Some (snd (receive_block incoming bc))
  | OpResolve answers => Some (snd (resolve answers bc))
  | OpSetBlock fuel now data =>
      match setBlock fuel now data bc with
      | Done (Ret (_, bc')) => Some bc'
      | Done (Throw _) => Some bc
      | OutOfFuel => None
      end
  | OpReplaceChain newChain =>
      match replaceChain newChain bc with
      | Ret (_, bc') => Some bc'
      | Throw _ => Some bc
      end
  end.

Fixpoint run (ops : list operation) (bc : Blockchain) : option Blockchain :=
  match ops with
  | [] => Some bc
  | op :: rest =>
      match after op bc with
      | Some bc' => run rest bc'
      | None => None
      end
  end.

(** A ledger in order: its chain is valid and is what the data file
    holds. *)
Definition in_order (bc : Blockchain) : Prop :=
  isChainValid (chain bc) = Ret true /\ dbFile bc = chain bc.

(** * Properties *)

(** ** Test vectors *)

Example sha256_empty :
  sha256_hex [] =
  "e3b0c44298fc1c149afbf4c8996fb92427ae41e4649b934ca495991b7852b855"%string.
Proof. vm_compute. reflexivity. Qed.

Example sha256_abc :
  sha256_hex (chars "abc") =
  "ba7816bf8f01cfea414140de5dae2223b00361a396177a9cb410ff61f20015ad"%string.
Proof. vm_compute. reflexivity. Qed.

Example sha256_two_blocks :
  sha256_hex
    (chars "abcdbcdecdefdefgefghfghighijhijkijkljklmklmnlmnomnopnopq") =
  "248d6a61d20638b8e5c026930c3e6039a33ce45964ff2167f6ecedd419db06c1"%string.
Proof. vm_compute. reflexivity. Qed.

(** ** Leading zeros and the proof-of-work target *)

Lemma startsWith_zeros (n : nat) (s : string) :
  startsWith s (repeat_string "0" n) = true <-> (n <= leading_zeros s)%nat.
Proof.
  revert s. induction n as [|n IH]; intros s; simpl.
  - split; [lia | reflexivity].
  - destruct s as [|c r]; simpl; [split; [discriminate | lia]|].
    destruct (Ascii.eqb c "0"); simpl; [rewrite IH; lia|].
    split; [discriminate | lia].
Qed.

Lemma String_repeat_nonneg (s : string) (d : Z) :
  0 <= d -> String_repeat s d = Ret (repeat_string s (Z.to_nat d)).
Proof.
  intros H. unfold String_repeat.
  destruct (Z.ltb_spec d 0); [lia | reflexivity].
Qed.

Lemma String_repeat_neg (s : string) (d : Z) :
  d < 0 -> String_repeat s d = Throw RangeError.
Proof.
  intros H. unfold String_repeat.
  destruct (Z.ltb_spec d 0); [reflexivity | lia].
Qed.

(** [hash] starts with [difficulty] zeros, as the code tests it. *)
Lemma target_met_iff (h : string) (d : Z) :
  0 <= d ->
  startsWith h (repeat_string "0" (Z.to_nat d)) = true <->
  d <= Z.of_nat (leading_zeros h).
Proof. intros Hd. rewrite startsWith_zeros. lia. Qed.

Example node0_constructed :
  new_Blockchain 100 1700000000000 None 3 = Done (Ret node0).
Proof. vm_compute. reflexivity. Qed.

Example block1_mined :
  mineBlock 100 1700000000001 (JObj [("msg"%string, JStr "a")])
            (Some (JNum 1)) node0
  = Done (Ret (block1,
               mkBlockchain [genesis0; block1] 3 [genesis0; block1])).
Proof. vm_compute. reflexivity. Qed.

Example block2_mined :
  mineBlock 100 1700000000002 (JObj [("msg"%string, JStr "b")])
            (Some (JNum 1))
            (mkBlockchain [genesis0; block1] 3 [genesis0; block1])
  = Done (Ret (block2,
               mkBlockchain [genesis0; block1; block2] 3
                            [genesis0; block1; block2])).
Proof. vm_compute. reflexivity. Qed.

Example sample_hashes :
  calculateHash_of stray2 = hash stray2 /\
  calculateHash_of negative1 = hash negative1 /\
  calculateHash_of easy1 = hash easy1.
Proof. vm_compute. repeat split. Qed.

(** ** isValidNewBlock *)

Lemma isValidNewBlock_throw (c p : Block) (e : exn) :
  isValidNewBlock c p = Throw e ->
  e = RangeError /\ difficulty c < 0 /\
  index c = index p + 1 /\ prevHash c = hash p /\
  calculateHash_of c = hash c.
Proof.
  unfold isValidNewBlock, String_repeat.
  destruct (Z.eqb_spec (index p + 1) (index c)); simpl; [|discriminate].
  destruct (String.eqb_spec (hash p) (prevHash c)); simpl; [|discriminate].
  destruct (String.eqb_spec (calculateHash_of c) (hash c)); simpl;
    [|discriminate].
  destruct (Z.ltb_spec (difficulty c) 0); simpl.
  - intros [= <-]. repeat split; (lia || congruence).
  - destruct (startsWith _ _); discriminate.
Qed.

Lemma isValidNewBlock_true_iff (c p : Block) :
  isValidNewBlock c p = Ret true <->
  successor_conditions c p /\ 0 <= difficulty c.
Proof.
  unfold isValidNewBlock, successor_conditions.
  destruct (Z.eqb_spec (index p + 1) (index c)) as [Hi|Hi]; simpl.
  2: { split; [discriminate | intros [[? _] _]; lia]. }
  destruct (String.eqb_spec (hash p) (prevHash c)) as [Hl|Hl]; simpl.
  2: { split; [discriminate | intros [(_ & ? & _) _]; congruence]. }
  destruct (String.eqb_spec (calculateHash_of c) (hash c)) as [Hh|Hh]; simpl.
  2: { split; [discriminate | intros [(_ & _ & ? & _) _]; congruence]. }
  destruct (Z.lt_ge_cases (difficulty c) 0) as [Hd|Hd].
  - rewrite String_repeat_neg by assumption. simpl.
    split; [discriminate | lia].
  - rewrite String_repeat_nonneg by lia. simpl.
    destruct (startsWith (hash c) _) eqn:Hs; simpl.
    + apply target_met_iff in Hs; [|lia].
      split; [intros _ | reflexivity].
      repeat split; try congruence; lia.
    + split; [discriminate|]. intros [(_ & _ & _ & Hz) _].
      apply target_met_iff in Hz; [|lia]. congruence.
Qed.





(** ** isChainValid *)

Lemma isChainValid_loop_true_iff (s : list Block) (n i : nat) :
  (i + n = length s)%nat -> (1 <= i)%nat ->
  isChainValid_loop s i n = Ret true <->
  (forall j c p, (i <= j)%nat -> s !! j = Some c -> s !! (j - 1)%nat = Some p ->
                 isValidNewBlock c p = Ret true).
Proof.
  revert i. induction n as [|n IH]; intros i Hlen Hi; simpl.
  - split; [|reflexivity]. intros _ j c p Hj Hc _.
    apply lookup_lt_Some in Hc. lia.
  - destruct (lookup_lt_is_Some_2 s i) as [cur Hcur]; [lia|].
    destruct (lookup_lt_is_Some_2 s (i - 1)) as [prev Hprev]; [lia|].
    rewrite Hcur, Hprev.
    destruct (isValidNewBlock cur prev) as [[|]| e] eqn:E; simpl.
    + rewrite IH by lia. split.
      * intros H j c p Hj Hc Hp.
        destruct (decide (j = i)) as [->|Hne]; [congruence|].
        apply (H j); [lia | assumption..].
      * intros H j c p Hj. apply H. lia.
    + split; [discriminate|]. intros H.
      rewrite (H i cur prev) in E; [discriminate | lia | assumption..].
    + split; [discriminate|]. intros H.
      rewrite (H i cur prev) in E; [discriminate | lia | assumption..].
Qed.

Lemma isChainValid_loop_outcome (s : list Block) (n i : nat) :
  (i + n = length s)%nat -> (1 <= i)%nat ->
  (exists b, isChainValid_loop s i n = Ret b) \/
  isChainValid_loop s i n = Throw RangeError.
Proof.
  revert i. induction n as [|n IH]; intros i Hlen Hi; simpl.
  - left. eexists. reflexivity.
  - destruct (lookup_lt_is_Some_2 s i) as [cur Hcur]; [lia|].
    destruct (lookup_lt_is_Some_2 s (i - 1)) as [prev Hprev]; [lia|].
    rewrite Hcur, Hprev.
    destruct (isValidNewBlock cur prev) as [[|]| e] eqn:E; simpl.
    + apply IH; lia.
    + left. eexists. reflexivity.
    + apply isValidNewBlock_throw in E as [-> _]. right. reflexivity.
Qed.

Lemma isChainValid_outcome (s : list Block) :
  (exists b, isChainValid s = Ret b) \/ isChainValid s = Throw RangeError.
Proof.
  unfold isChainValid. destruct s as [|g r]; simpl.
  - left. eexists. reflexivity.
  - apply isChainValid_loop_outcome; simpl; lia.
Qed.

Lemma isChainValid_true_iff (s : list Block) :
  isChainValid s = Ret true <-> s <> [] /\ adjacent_pairs_valid s.
Proof.
  unfold isChainValid, adjacent_pairs_valid. destruct s as [|g r]; simpl.
  - split; [discriminate | intros [[] _]; reflexivity].
  - rewrite isChainValid_loop_true_iff by (simpl; lia).
    split; [intros H; split; [discriminate | exact H] | intros [_ H]; exact H].
Qed.

(** C5: an empty sequence is invalid; a sequence that is not empty is valid
    exactly when every block from index 1 onward is a valid successor of the
    block before it; the block at index 0 is not looked at, so every
    sequence of one block is valid. *)
Theorem isChainValid_spec :
  isChainValid [] = Ret false /\
  (forall s : list Block,
     isChainValid s = Ret true <->
     s <> [] /\
     forall i c p, (1 <= i)%nat -> s !! i = Some c ->
                   s !! (i - 1)%nat = Some p ->
                   isValidNewBlock c p = Ret true) /\
  (forall b : Block, isChainValid [b] = Ret true).
Proof.
  split; [reflexivity|]. split; [exact isChainValid_true_iff|].
  intros b. reflexivity.
Qed.

(** ** The tip of the chain *)

Lemma getLatestBlock_push (b : Block) (bc : Blockchain) :
  getLatestBlock (save (push b bc)) = Some b.
Proof.
  unfold getLatestBlock. simpl. rewrite length_app. simpl.
  replace (length (chain bc) + 1 - 1)%nat with (length (chain bc) + 0)%nat
    by lia.
  rewrite lookup_app_r by lia.
  replace (length (chain bc) + 0 - length (chain bc))%nat with 0%nat by lia.
  reflexivity.
Qed.

Lemma getLatestBlock_Some_length (bc : Blockchain) (t : Block) :
  getLatestBlock bc = Some t -> (1 <= length (chain bc))%nat.
Proof.
  unfold getLatestBlock. intros H. apply lookup_lt_Some in H. lia.
Qed.


(** A pair of neighbours of [s ++ [b]] is a pair of neighbours of [s], or
    the last block of [s] followed by [b]. *)
Lemma snoc_pair (s : list Block) (t b c p : Block) (i : nat) :
  s !! (length s - 1)%nat = Some t -> (1 <= i)%nat ->
  (s ++ [b]) !! i = Some c -> (s ++ [b]) !! (i - 1)%nat = Some p ->
  s !! i = Some c /\ s !! (i - 1)%nat = Some p \/ c = b /\ p = t.
Proof.
  intros Ht Hi Hc Hp. pose proof (lookup_lt_Some _ _ _ Ht) as Hlen.
  destruct (decide (i < length s)%nat) as [Hlt|Hge].
  - rewrite lookup_app_l in Hc by assumption.
    rewrite lookup_app_l in Hp by lia. auto.
  - rewrite lookup_app_r in Hc by lia.
    destruct (i - length s)%nat as [|k] eqn:Ek; simpl in Hc; [|discriminate].
    replace (i - 1)%nat with (length s - 1)%nat in Hp by lia.
    rewrite lookup_app_l in Hp by lia. right. split; congruence.
Qed.

(** ** POST /api/receive-block *)

Lemma receive_block_cases (b t : Block) (bc : Blockchain) :
  getLatestBlock bc = Some t ->
  receive_block b bc =
  match isValidNewBlock b t with
  | Ret true => (Adopted (index b), save (push b bc))
  | Ret false => (Rejected, bc)
  | Throw e => (BadRequest e, bc)
  end.
Proof.
  intros Ht. unfold receive_block. rewrite Ht.
  destruct (isValidNewBlock b t) as [[|]|]; try reflexivity.
  rewrite getLatestBlock_push. reflexivity.
Qed.




(** ** replaceChain *)

Lemma replaceChain_cases (cand : list Block) (bc : Blockchain) :
  replaceChain cand bc =
  if (length cand <=? length (chain bc))%nat then Ret (false, bc)
  else match isChainValid cand with
       | Ret true => Ret (true, save (set_chain cand bc))
       | Ret false => Ret (false, bc)
       | Throw e => Throw e
       end.
Proof.
  unfold replaceChain. destruct (length cand <=? length (chain bc))%nat;
    [reflexivity|].
  destruct (isChainValid cand) as [[|]|]; reflexivity.
Qed.

Lemma replaceChain_true_iff (cand : list Block) (bc bc' : Blockchain) :
  replaceChain cand bc = Ret (true, bc') <->
  (length (chain bc) < length cand)%nat /\ isChainValid cand = Ret true /\
  bc' = save (set_chain cand bc).
Proof.
  rewrite replaceChain_cases.
  destruct (Nat.leb_spec (length cand) (length (chain bc))).
  - split; [discriminate | lia].
  - destruct (isChainValid cand) as [[|]|]; split; try discriminate;
      try (intros (_ & [=] & _); fail).
    + intros [= <-]. auto.
    + intros (_ & _ & ->). reflexivity.
Qed.

(** C1, as the code has it: replaceChain returns true and installs the
    candidate exactly when the candidate is longer than the chain and
    isChainValid returns true on it; the chain is unchanged in every other
    case; the call returns false when the candidate is not longer and when
    isChainValid returns false, and it raises RangeError, instead of
    returning, when the candidate is longer and isChainValid raises. *)
Theorem replaceChain_spec (cand : list Block) (bc : Blockchain) :
  (replaceChain cand bc = Ret (true, save (set_chain cand bc)) <->
   (length (chain bc) < length cand)%nat /\ isChainValid cand = Ret true) /\
  (forall r bc', replaceChain cand bc = Ret (r, bc') ->
     if r then chain bc' = cand else bc' = bc) /\
  (replaceChain cand bc = Ret (false, bc) <->
   (length cand <= length (chain bc))%nat \/ isChainValid cand = Ret false) /\
  (replaceChain cand bc = Throw RangeError <->
   (length (chain bc) < length cand)%nat /\
   isChainValid cand = Throw RangeError) /\
  (replaceChain cand bc = Ret (true, save (set_chain cand bc)) \/
   replaceChain cand bc = Ret (false, bc) \/
   replaceChain cand bc = Throw RangeError).
Proof.
  rewrite replaceChain_cases.
  destruct (Nat.leb_spec (length cand) (length (chain bc))) as [Hle|Hlt].
  - split; [split; [discriminate | lia]|].
    split; [intros r bc' [= <- <-]; reflexivity|].
    split; [split; [left; lia | reflexivity]|].
    split; [split; [discriminate | lia]|].
    right. left. reflexivity.
  - destruct (isChainValid_outcome cand) as [[[|] E]|E]; rewrite E.
    + split; [split; [auto | reflexivity]|].
      split; [intros r bc' [= <- <-]; reflexivity|].
      split; [split; [discriminate | intros [?|?]; [lia | discriminate]]|].
      split; [split; [discriminate | intros [_ ?]; discriminate]|].
      left. reflexivity.
    + split; [split; [discriminate | intros [_ ?]; discriminate]|].
      split; [intros r bc' [= <- <-]; reflexivity|].
      split; [split; [right; reflexivity | reflexivity]|].
      split; [split; [discriminate | intros [_ ?]; discriminate]|].
      right. left. reflexivity.
    + split; [split; [discriminate | intros [_ ?]; discriminate]|].
      split; [intros r bc'; discriminate|].
      split; [split; [discriminate | intros [?|?]; [lia | discriminate]]|].
      split; [split; [auto | reflexivity]|].
      right. right. reflexivity.
Qed.

(** C1 read as written fails on the candidate [genesis0; negative1]: it is
    longer than the chain of [node0], isChainValid does not return true on
    it, and replaceChain does not return false. *)
Lemma replaceChain_negative_counterexample :
  ~ ((length (chain node0) < length [genesis0; negative1])%nat /\
     isChainValid [genesis0; negative1] = Ret true) /\
  replaceChain [genesis0; negative1] node0 <> Ret (false, node0).
Proof.
  split.
  - intros [_ H]. vm_compute in H. discriminate.
  - vm_compute. discriminate.
Qed.

(** ** proofOfWork *)

Section NonceSearch.

Variables (idx ts : Z) (dat : JSON) (ph : string) (d : Z) (target : string).

Lemma proofOfWork_loop_found (k fuel : nat) (start : Z) :
  (forall m, start <= m < start + Z.of_nat k ->
             nonce_found idx ts dat ph d target m = false) ->
  nonce_found idx ts dat ph d target (start + Z.of_nat k) = true ->
  (k < fuel)%nat ->
  proofOfWork_loop fuel idx ts dat ph d target start
  = Done (Ret (start + Z.of_nat k,
               calculateHash idx ts dat ph (start + Z.of_nat k) d)).
Proof.
  unfold nonce_found.
  revert fuel start.
  induction k as [|k IH]; intros fuel start Hbefore Hat Hfuel;
    (destruct fuel as [|fuel]; [lia|]); simpl.
  - replace (start + Z.of_nat 0) with start in * by lia.
    rewrite Hat. reflexivity.
  - rewrite (Hbefore start) by lia.
    replace (start + Z.of_nat (S k)) with (start + 1 + Z.of_nat k) in * by lia.
    apply IH; [|assumption|lia].
    intros m Hm. apply Hbefore. lia.
Qed.

Lemma proofOfWork_loop_timeout (fuel : nat) (start : Z) :
  (forall m, start <= m < start + Z.of_nat fuel ->
             nonce_found idx ts dat ph d target m = false) ->
  proofOfWork_loop fuel idx ts dat ph d target start = OutOfFuel.
Proof.
  unfold nonce_found.
  revert start. induction fuel as [|fuel IH]; intros start Hbefore; simpl;
    [reflexivity|].
  rewrite (Hbefore start) by lia.
  apply IH. intros m Hm. apply Hbefore. lia.
Qed.

Lemma least_found (k : nat) (start : Z) :
  nonce_found idx ts dat ph d target (start + Z.of_nat k) = true ->
  exists j : nat,
    (j <= k)%nat /\
    nonce_found idx ts dat ph d target (start + Z.of_nat j) = true /\
    forall m, start <= m < start + Z.of_nat j ->
              nonce_found idx ts dat ph d target m = false.
Proof.
  revert start. induction k as [|k IH]; intros start Hat.
  - exists 0%nat. split; [lia|]. split; [assumption|]. intros m Hm. lia.
  - destruct (nonce_found idx ts dat ph d target start) eqn:E.
    + exists 0%nat. split; [lia|].
      replace (start + Z.of_nat 0) with start by lia.
      split; [assumption|]. intros m Hm. lia.
    + replace (start + Z.of_nat (S k)) with (start + 1 + Z.of_nat k) in Hat
        by lia.
      destruct (IH (start + 1) Hat) as (j & Hj & Hfj & Hbefore).
      exists (S j). split; [lia|].
      replace (start + Z.of_nat (S j)) with (start + 1 + Z.of_nat j) by lia.
      split; [assumption|]. intros m Hm.
      destruct (Z.eq_dec m start) as [->|Hne]; [assumption|].
      apply Hbefore. lia.
Qed.

End NonceSearch.

(** What the search returns, for a difficulty that is not negative. *)
Lemma proofOfWork_returns (idx ts : Z) (dat : JSON) (ph : string) (d n0 : Z) :
  0 <= d -> 0 <= n0 -> meets_target idx ts dat ph d n0 ->
  exists n, 0 <= n <= n0 /\
    meets_target idx ts dat ph d n /\
    (forall m, 0 <= m < n -> ~ meets_target idx ts dat ph d m) /\
    (forall fuel, (Z.to_nat n < fuel)%nat ->
       proofOfWork fuel idx ts dat ph d
       = Done (Ret (n, calculateHash idx ts dat ph n d))) /\
    (forall fuel, (fuel <= Z.to_nat n)%nat ->
       proofOfWork fuel idx ts dat ph d = OutOfFuel).
Proof.
  intros Hd Hn0 Hmeet. unfold meets_target in *.
  set (target := repeat_string "0" (Z.to_nat d)).
  assert (forall n,
             startsWith (calculateHash idx ts dat ph n d) target = true <->
             d <= Z.of_nat (leading_zeros (calculateHash idx ts dat ph n d)))
    as Hiff by (intros n; apply target_met_iff; assumption).
  destruct (least_found idx ts dat ph d target (Z.to_nat n0) 0)
    as (j & Hj & Hfj & Hbefore).
  { unfold nonce_found. apply Hiff.
    replace (0 + Z.of_nat (Z.to_nat n0)) with n0 by lia. assumption. }
  unfold nonce_found in Hfj, Hbefore.
  exists (Z.of_nat j). simpl in Hfj.
  split; [lia|]. split; [apply Hiff; assumption|].
  split.
  { intros m Hm Hmm. apply Hiff in Hmm.
    rewrite Hbefore in Hmm; [discriminate | lia]. }
  unfold proofOfWork. rewrite String_repeat_nonneg by assumption. simpl.
  fold target. split; intros fuel Hfuel.
  - apply (proofOfWork_loop_found idx ts dat ph d target j fuel 0).
    + exact Hbefore.
    + exact Hfj.
    + lia.
  - apply proofOfWork_loop_timeout. intros m Hm. apply Hbefore. lia.
Qed.

Lemma proofOfWork_loop_Ret (fuel : nat) (idx ts : Z) (dat : JSON) (ph : string)
    (d : Z) (target : string) (start n : Z) (h : string) :
  proofOfWork_loop fuel idx ts dat ph d target start = Done (Ret (n, h)) ->
  start <= n /\ h = calculateHash idx ts dat ph n d /\
  startsWith h target = true.
Proof.
  revert start. induction fuel as [|fuel IH]; intros start; simpl;
    [discriminate|].
  destruct (startsWith (calculateHash idx ts dat ph start d) target) eqn:E.
  - intros H. inversion H; subst. split; [lia|]. split; [reflexivity | exact E].
  - intros H. apply IH in H. split; [lia | tauto].
Qed.

Lemma proofOfWork_Ret (fuel : nat) (idx ts : Z) (dat : JSON) (ph : string)
    (d n : Z) (h : string) :
  proofOfWork fuel idx ts dat ph d = Done (Ret (n, h)) ->
  0 <= d /\ 0 <= n /\ h = calculateHash idx ts dat ph n d /\
  d <= Z.of_nat (leading_zeros h).
Proof.
  unfold proofOfWork. destruct (Z.lt_ge_cases d 0) as [Hd|Hd].
  - rewrite String_repeat_neg by assumption. discriminate.
  - rewrite String_repeat_nonneg by assumption. simpl.
    intros H. apply proofOfWork_loop_Ret in H as (Hn & Hh & Ht).
    apply target_met_iff in Ht; [|assumption]. auto.
Qed.




(** ** setBlock and mineBlock *)

Lemma mined_block_valid (prev : Block) (now : Z) (dat : JSON) (d n : Z)
    (h : string) :
  0 <= d -> h = calculateHash (index prev + 1) now dat (hash prev) n d ->
  d <= Z.of_nat (leading_zeros h) ->
  isValidNewBlock (mkBlock (index prev + 1) now dat (hash prev) n d h) prev
  = Ret true.
Proof.
  intros Hd Hh Hz. apply isValidNewBlock_true_iff.
  unfold successor_conditions, calculateHash_of. simpl. auto.
Qed.

(** Both operations extend the chain in the same way; they differ in the
    difficulty they mine at. *)
Lemma extend_Ret (fuel : nat) (now : Z) (dat : JSON) (d : Z) (prev : Block)
    (bc : Blockchain) (msg : string) (b : Block) (bc' : Blockchain) :
  (let+ nh := proofOfWork fuel (index prev + 1) now dat (hash prev) d in
   let block :=
     mkBlock (index prev + 1) now dat (hash prev) (fst nh) d (snd nh) in
   Done (let* ok := isValidNewBlock block prev in
         if negb ok then Throw (Error msg)
         else Ret (block, save (push block bc))))
  = Done (Ret (b, bc')) ->
  index b = index prev + 1 /\ timestamp b = now /\ data b = dat /\
  prevHash b = hash prev /\ difficulty b = d /\
  isValidNewBlock b prev = Ret true /\ bc' = save (push b bc).
Proof.
  destruct (proofOfWork fuel (index prev + 1) now dat (hash prev) d)
    as [[[n h]|]|] eqn:E; simpl; try discriminate.
  destruct (isValidNewBlock _ prev) as [[|]|] eqn:V; simpl; try discriminate.
  intros H. inversion H; subst. simpl. auto 10.
Qed.

Lemma extend_returns (fuel : nat) (now : Z) (dat : JSON) (d n0 : Z)
    (prev : Block) (bc : Blockchain) (msg : string) :
  0 <= d -> 0 <= n0 ->
  meets_target (index prev + 1) now dat (hash prev) d n0 ->
  (Z.to_nat n0 < fuel)%nat ->
  exists b,
    (let+ nh := proofOfWork fuel (index prev + 1) now dat (hash prev) d in
     let block :=
       mkBlock (index prev + 1) now dat (hash prev) (fst nh) d (snd nh) in
     Done (let* ok := isValidNewBlock block prev in
           if negb ok then Throw (Error msg)
           else Ret (block, save (push block bc))))
    = Done (Ret (b, save (push b bc))).
Proof.
  intros Hd Hn0 Hmeet Hfuel.
  destruct (proofOfWork_returns _ _ _ _ _ _ Hd Hn0 Hmeet)
    as (n & Hn & Hm & _ & Hret & _).
  rewrite Hret by lia. simpl.
  rewrite mined_block_valid; [|assumption|reflexivity|exact Hm].
  simpl. eexists. reflexivity.
Qed.

Lemma mineBlock_Ret (fuel : nat) (now : Z) (dat : JSON) (supplied : option JSON)
    (bc : Blockchain) (b : Block) (bc' : Blockchain) :
  mineBlock fuel now dat supplied bc = Done (Ret (b, bc')) ->
  exists prev, getLatestBlock bc = Some prev /\
    index b = index prev + 1 /\ timestamp b = now /\ data b = dat /\
    prevHash b = hash prev /\ difficulty b = mine_difficulty supplied bc /\
    isValidNewBlock b prev = Ret true /\ bc' = save (push b bc).
Proof.
  unfold mineBlock. destruct (getLatestBlock bc) as [prev|]; [|discriminate].
  intros H. exists prev. split; [reflexivity|].
  exact (extend_Ret _ _ _ _ _ _ _ _ _ H).
Qed.

Lemma setBlock_Ret (fuel : nat) (now : Z) (dat : JSON)
    (bc : Blockchain) (b : Block) (bc' : Blockchain) :
  setBlock fuel now dat bc = Done (Ret (b, bc')) ->
  exists prev, getLatestBlock bc = Some prev /\
    index b = index prev + 1 /\ timestamp b = now /\ data b = dat /\
    prevHash b = hash prev /\ difficulty b = defaultDifficulty bc /\
    isValidNewBlock b prev = Ret true /\ bc' = save (push b bc).
Proof.
  unfold setBlock. destruct (getLatestBlock bc) as [prev|]; [|discriminate].
  intros H. exists prev. split; [reflexivity|].
  exact (extend_Ret _ _ _ _ _ _ _ _ _ H).
Qed.

(** setBlock returns, given fuel, whenever some nonce meets the target at
    the default difficulty. *)
Lemma setBlock_returns (fuel : nat) (now : Z) (dat : JSON) (bc : Blockchain)
    (prev : Block) (n0 : Z) :
  getLatestBlock bc = Some prev ->
  0 <= defaultDifficulty bc -> 0 <= n0 ->
  meets_target (index prev + 1) now dat (hash prev) (defaultDifficulty bc) n0 ->
  (Z.to_nat n0 < fuel)%nat ->
  exists b, setBlock fuel now dat bc = Done (Ret (b, save (push b bc))).
Proof.
  intros Hprev Hd Hn0 Hmeet Hfuel. unfold setBlock. rewrite Hprev.
  exact (extend_returns fuel now dat _ n0 prev bc "Invalid block"
                        Hd Hn0 Hmeet Hfuel).
Qed.

(** C10: the block that mineBlock returns and appends has the supplied
    difficulty when that is a number above 0, and the default difficulty of
    the ledger for every other supplied value (0, a negative number, a value
    that is not a number, or none); and mineBlock does return such a block,
    given fuel, whenever some nonce meets the target at that difficulty. *)
Theorem mineBlock_difficulty (now : Z) (dat : JSON) (supplied : option JSON)
    (bc : Blockchain) :
  (forall fuel b bc',
     mineBlock fuel now dat supplied bc = Done (Ret (b, bc')) ->
     chain bc' = chain bc ++ [b] /\
     (forall d, supplied = Some (JNum d) -> 0 < d -> difficulty b = d) /\
     ((forall d, supplied = Some (JNum d) -> d <= 0) ->
      difficulty b = defaultDifficulty bc)) /\
  (forall prev d n0 fuel,
     getLatestBlock bc = Some prev ->
     (supplied = Some (JNum d) /\ 0 < d \/
      (forall d', supplied = Some (JNum d') -> d' <= 0) /\
      d = defaultDifficulty bc /\ 0 <= d) ->
     0 <= n0 -> meets_target (index prev + 1) now dat (hash prev) d n0 ->
     (Z.to_nat n0 < fuel)%nat ->
     exists b,
       mineBlock fuel now dat supplied bc = Done (Ret (b, save (push b bc))) /\
       difficulty b = d).
Proof.
  split.
  - intros fuel b bc' H.
    apply mineBlock_Ret in H as (p & _ & _ & _ & _ & _ & Hd & _ & ->).
    split; [reflexivity|]. rewrite Hd. unfold mine_difficulty. split.
    + intros d -> Hpos. destruct (Z.ltb_spec 0 d); [reflexivity | lia].
    + intros Hnot. destruct supplied as [[| | d | | |]|]; try reflexivity.
      specialize (Hnot d eq_refl).
      destruct (Z.ltb_spec 0 d); [lia | reflexivity].
  - intros prev d n0 fuel Hprev Hcase Hn0 Hmeet Hfuel.
    assert (mine_difficulty supplied bc = d /\ 0 <= d) as [Hd Hd0].
    { unfold mine_difficulty. destruct Hcase as [[-> Hpos]|(Hnot & -> & H0)].
      - destruct (Z.ltb_spec 0 d); lia.
      - split; [|assumption].
        destruct supplied as [[| | d | | |]|]; try reflexivity.
        specialize (Hnot d eq_refl).
        destruct (Z.ltb_spec 0 d); [lia | reflexivity]. }
    unfold mineBlock. rewrite Hprev, Hd.
    destruct (extend_returns fuel now dat d n0 prev bc
                "Invalid block after mining" Hd0 Hn0 Hmeet Hfuel) as [b Hb].
    exists b. split; [exact Hb|].
    apply extend_Ret in Hb. tauto.
Qed.

Lemma mineBlock_difficulty_witness :
  mineBlock 100 1700000000001 (JObj [("msg"%string, JStr "a")])
            (Some (JNum 1)) node0
  = Done (Ret (block1, save (push block1 node0))) /\
  difficulty block1 = 1.
Proof.
  assert (mineBlock 100 1700000000001 (JObj [("msg"%string, JStr "a")])
                    (Some (JNum 1)) node0
          = Done (Ret (block1, save (push block1 node0)))) as Hrun
    by (vm_compute; reflexivity).
  split; [exact Hrun|].
  destruct (mineBlock_difficulty 1700000000001
              (JObj [("msg"%string, JStr "a")]) (Some (JNum 1)) node0)
    as [Hpartial _].
  destruct (Hpartial _ _ _ Hrun) as (_ & Hnum & _).
  apply (Hnum 1); [reflexivity | lia].
Defined.

(** With default difficulty 1, a supplied difficulty of 0, of -4, a string,
    or none at all all mine at 1; a supplied 2 mines at 2. *)
Example mineBlock_difficulty_examples :
  let node1 := mkBlockchain [genesis0] 1 [genesis0] in
  let mined supplied :=
    match mineBlock 1000 1700000000001 JNull supplied node1 with
    | Done (Ret (b, _)) => Some (difficulty b)
    | _ => None
    end in
  mined (Some (JNum 0)) = Some 1 /\
  mined (Some (JNum (-4))) = Some 1 /\
  mined (Some (JStr "2")) = Some 1 /\
  mined None = Some 1 /\
  mined (Some (JNum 2)) = Some 2.
Proof. vm_compute. repeat split. Qed.

(** ** Chains grown by appending *)

Lemma append_Ret (c : append_call) (bc bc' : Blockchain) :
  append c bc = Done (Ret bc') ->
  exists prev b, getLatestBlock bc = Some prev /\
    index b = index prev + 1 /\ prevHash b = hash prev /\
    isValidNewBlock b prev = Ret true /\ bc' = save (push b bc).
Proof.
  destruct c as [fuel now dat | fuel now dat supplied]; simpl.
  - destruct (setBlock fuel now dat bc) as [[[b st]|]|] eqn:E; simpl;
      try discriminate.
    intros H. inversion H; subst.
    apply setBlock_Ret in E as (prev & Hp & Hi & _ & _ & Hl & _ & Hv & ->).
    exists prev, b. auto.
  - destruct (mineBlock fuel now dat supplied bc) as [[[b st]|]|] eqn:E; simpl;
      try discriminate.
    intros H. inversion H; subst.
    apply mineBlock_Ret in E as (prev & Hp & Hi & _ & _ & Hl & _ & Hv & ->).
    exists prev, b. auto.
Qed.

Lemma getLatestBlock_lookup (bc : Blockchain) (t : Block) :
  getLatestBlock bc = Some t ->
  chain bc !! (length (chain bc) - 1)%nat = Some t /\
  (1 <= length (chain bc))%nat.
Proof.
  intros H. split; [exact H|]. exact (getLatestBlock_Some_length bc t H).
Qed.

Lemma indices_in_order_push (s : list Block) (t b : Block) :
  indices_in_order s -> s !! (length s - 1)%nat = Some t ->
  (1 <= length s)%nat -> index b = index t + 1 ->
  indices_in_order (s ++ [b]).
Proof.
  intros Hs Ht Hlen Hb i x Hx.
  destruct (decide (i < length s)%nat) as [Hi|Hi].
  - rewrite lookup_app_l in Hx by assumption. exact (Hs i x Hx).
  - rewrite lookup_app_r in Hx by lia.
    destruct (i - length s)%nat as [|k] eqn:Ek; simpl in Hx; [|discriminate].
    inversion Hx; subst x. rewrite Hb, (Hs _ _ Ht). lia.
Qed.

Lemma linked_push (s : list Block) (t b : Block) :
  linked s -> s !! (length s - 1)%nat = Some t ->
  prevHash b = hash t ->
  linked (s ++ [b]).
Proof.
  intros Hs Ht Hb i x p Hi Hx Hp.
  destruct (snoc_pair s t b x p i Ht Hi Hx Hp) as [[Hx' Hp']|[-> ->]].
  - exact (Hs i x p Hi Hx' Hp').
  - exact Hb.
Qed.

Lemma appends_invariant (cs : list append_call) (bc bc' : Blockchain) :
  appends cs bc = Done (Ret bc') ->
  (1 <= length (chain bc))%nat ->
  indices_in_order (chain bc) -> linked (chain bc) ->
  length (chain bc') = (length (chain bc) + length cs)%nat /\
  indices_in_order (chain bc') /\ linked (chain bc').
Proof.
  revert bc. induction cs as [|c cs IH]; intros bc; simpl.
  - intros H. inversion H; subst. intros. split; [lia | auto].
  - destruct (append c bc) as [[bc1|]|] eqn:E; simpl; try discriminate.
    intros H Hlen Hidx Hlink.
    apply append_Ret in E as (prev & b & Hp & Hi & Hl & _ & ->).
    apply getLatestBlock_lookup in Hp as [Hp _].
    destruct (IH _ H) as (Hlen' & Hidx' & Hlink').
    + simpl. rewrite length_app. simpl. lia.
    + simpl. eapply indices_in_order_push; eauto.
    + simpl. eapply linked_push; eauto.
    + split; [|auto]. rewrite Hlen'. simpl. rewrite length_app. simpl. lia.
Qed.

Lemma createGenesisBlock_index (fuel : nat) (now : Z) (g : Block) :
  createGenesisBlock fuel now = Done (Ret g) ->
  index g = 0 /\ difficulty g = 1 /\ prevHash g = repeat_string "0" 64.
Proof.
  unfold createGenesisBlock.
  destruct (proofOfWork _ _ _ _ _ _) as [[nh|]|]; simpl; try discriminate.
  intros H. inversion H; subst. simpl. auto.
Qed.

Lemma new_Blockchain_genesis (fuel : nat) (now dd : Z) (bc : Blockchain) :
  new_Blockchain fuel now None dd = Done (Ret bc) ->
  exists g, chain bc = [g] /\ index g = 0 /\ defaultDifficulty bc = dd.
Proof.
  unfold new_Blockchain. simpl.
  destruct (createGenesisBlock fuel now) as [[g|]|] eqn:E; simpl;
    try discriminate.
  intros H. inversion H; subst. exists g. simpl.
  apply createGenesisBlock_index in E. tauto.
Qed.



(** The constructor, run without a data file, yields such a chain. *)
Lemma new_Blockchain_then_appends (fuel : nat) (now dd : Z)
    (cs : list append_call) (bc0 bc : Blockchain) :
  new_Blockchain fuel now None dd = Done (Ret bc0) ->
  appends cs bc0 = Done (Ret bc) ->
  length (chain bc) = (length cs + 1)%nat /\
  indices_in_order (chain bc) /\ linked (chain bc).
Proof.
  intros Hnew Hrun.
  apply new_Blockchain_genesis in Hnew as (g & Hg & Hi & _).
  destruct (appends_invariant cs bc0 bc Hrun) as (Hlen & Hidx & Hlink).
  - rewrite Hg. simpl. lia.
  - rewrite Hg. intros [|i] b; simpl; [|discriminate].
    intros H. inversion H; subst. assumption.
  - rewrite Hg. intros [|[|i]] b p Hle; simpl; try discriminate; lia.
  - split; [|split; assumption]. rewrite Hlen, Hg. simpl. lia.
Qed.

(** ** The validation inside the resolve handler *)

Lemma candidate_loop_step (s : list Block) (i n : nat) :
  candidate_loop s i (S n) =
  match s !! (i - 1)%nat, s !! i with
  | Some prev, Some curr =>
      let* ok := resolve_pair prev curr in
      if negb ok then Ret false else candidate_loop s (S i) n
  | _, _ => Throw TypeError
  end.
Proof.
  simpl. unfold resolve_pair.
  destruct (s !! (i - 1)%nat) as [prev|]; [|reflexivity].
  destruct (s !! i) as [curr|]; [|reflexivity].
  destruct (negb (calculateHash_of curr =? hash curr)%string); [reflexivity|].
  destruct (negb (prevHash curr =? hash prev)%string); [reflexivity|].
  destruct (String_repeat "0" (difficulty curr)) as [target|]; simpl;
    try reflexivity.
  destruct (negb (startsWith (hash curr) target)); reflexivity.
Qed.

Lemma resolve_pair_true_iff (prev curr : Block) :
  resolve_pair prev curr = Ret true <->
  calculateHash_of curr = hash curr /\ prevHash curr = hash prev /\
  0 <= difficulty curr <= Z.of_nat (leading_zeros (hash curr)).
Proof.
  unfold resolve_pair.
  destruct (String.eqb_spec (calculateHash_of curr) (hash curr)); simpl.
  2: { split; [discriminate | tauto]. }
  destruct (String.eqb_spec (prevHash curr) (hash prev)); simpl.
  2: { split; [discriminate | tauto]. }
  destruct (Z.lt_ge_cases (difficulty curr) 0) as [Hd|Hd].
  - rewrite String_repeat_neg by assumption. simpl.
    split; [discriminate | lia].
  - rewrite String_repeat_nonneg by assumption. simpl.
    destruct (startsWith (hash curr) _) eqn:Hs; simpl.
    + apply target_met_iff in Hs; [|assumption]. split; [auto | reflexivity].
    + split; [discriminate|]. intros (_ & _ & _ & Hz).
      apply target_met_iff in Hz; [|assumption]. congruence.
Qed.

(** The handler applies the tests of isValidNewBlock, the one on the index
    left out. *)
Lemma isValidNewBlock_resolve_pair (c p : Block) :
  isValidNewBlock c p = Ret true <->
  index c = index p + 1 /\ resolve_pair p c = Ret true.
Proof.
  rewrite isValidNewBlock_true_iff, resolve_pair_true_iff.
  unfold successor_conditions. intuition lia.
Qed.

Lemma candidate_loop_true_iff (s : list Block) (n i : nat) :
  (i + n = length s)%nat -> (1 <= i)%nat ->
  candidate_loop s i n = Ret true <->
  (forall j c p, (i <= j)%nat -> s !! j = Some c -> s !! (j - 1)%nat = Some p ->
                 resolve_pair p c = Ret true).
Proof.
  revert i. induction n as [|n IH]; intros i Hlen Hi.
  - simpl. split; [|reflexivity]. intros _ j c p Hj Hc _.
    apply lookup_lt_Some in Hc. lia.
  - rewrite candidate_loop_step.
    destruct (lookup_lt_is_Some_2 s i) as [cur Hcur]; [lia|].
    destruct (lookup_lt_is_Some_2 s (i - 1)) as [prev Hprev]; [lia|].
    rewrite Hcur, Hprev.
    destruct (resolve_pair prev cur) as [[|]| e] eqn:E; simpl.
    + rewrite IH by lia. split.
      * intros H j c p Hj Hc Hp.
        destruct (decide (j = i)) as [->|Hne]; [congruence|].
        apply (H j); [lia | assumption..].
      * intros H j c p Hj. apply H. lia.
    + split; [discriminate|]. intros H.
      rewrite (H i cur prev) in E; [discriminate | lia | assumption..].
    + split; [discriminate|]. intros H.
      rewrite (H i cur prev) in E; [discriminate | lia | assumption..].
Qed.

Lemma passes_resolve_check_iff (s : list Block) :
  s <> [] ->
  passes_resolve_check s <->
  (forall j c p, (1 <= j)%nat -> s !! j = Some c -> s !! (j - 1)%nat = Some p ->
                 resolve_pair p c = Ret true).
Proof.
  intros Hne. unfold passes_resolve_check.
  apply candidate_loop_true_iff; [|lia].
  destruct s; [contradiction | simpl; lia].
Qed.

(** A chain is valid exactly when it passes the test of the handler and
    its indices are consecutive. *)
Lemma isChainValid_resolve_check (s : list Block) :
  isChainValid s = Ret true <->
  s <> [] /\ passes_resolve_check s /\
  (forall j c p, (1 <= j)%nat -> s !! j = Some c -> s !! (j - 1)%nat = Some p ->
                 index c = index p + 1).
Proof.
  rewrite isChainValid_true_iff. unfold adjacent_pairs_valid. split.
  - intros [Hne H]. split; [assumption|].
    rewrite (passes_resolve_check_iff s Hne). split.
    + intros j c p Hj Hc Hp.
      apply (proj1 (isValidNewBlock_resolve_pair c p)), (H j); assumption.
    + intros j c p Hj Hc Hp.
      apply (proj1 (isValidNewBlock_resolve_pair c p)), (H j); assumption.
  - intros (Hne & Hchk & Hidx). split; [assumption|].
    rewrite (passes_resolve_check_iff s Hne) in Hchk.
    intros i c p Hi Hc Hp. apply isValidNewBlock_resolve_pair.
    split; [apply (Hidx i) | apply (Hchk i)]; assumption.
Qed.

(** ** POST /api/resolve *)

(** The chain that the scan of the peers retains: the local chain or a
    longer candidate that passed the test, at least as long as every
    candidate that passes it. *)
Lemma bestChain_spec (answers : list (option (list Block)))
    (best0 : list Block) :
  let best := fold_left resolve_peer answers best0 in
  (best = best0 \/
   In (Some best) answers /\ passes_resolve_check best /\
   (length best0 < length best)%nat) /\
  (length best0 <= length best)%nat /\
  (forall c, In (Some c) answers -> passes_resolve_check c ->
             (length c <= length best)%nat).
Proof.
  revert best0. induction answers as [|a answers IH]; intros best0; simpl.
  - split; [left; reflexivity|]. split; [lia|]. intros c [].
  - specialize (IH (resolve_peer best0 a)).
    destruct IH as (Hcase & Hlen & Hmax).
    assert (resolve_peer best0 a = best0 \/
            exists c, a = Some c /\ resolve_peer best0 a = c /\
                      passes_resolve_check c /\ (length best0 < length c)%nat)
      as Hstep.
    { unfold resolve_peer, passes_resolve_check.
      destruct a as [c|]; [|left; reflexivity].
      destruct (Nat.ltb_spec (length best0) (length c)); [|left; reflexivity].
      destruct (candidate_loop c 1 (length c - 1)) as [[|]|] eqn:E;
        try (left; reflexivity).
      right. exists c. auto. }
    assert (length best0 <= length (resolve_peer best0 a))%nat as Hmono.
    { destruct Hstep as [->|(c & _ & -> & _ & ?)]; lia. }
    split; [|split; [lia|]].
    + destruct Hcase as [Heq|(Hin & Hok & Hlt)].
      * rewrite Heq.
        destruct Hstep as [->|(c & -> & -> & Hok & Hlt)]; [left; reflexivity|].
        right. split; [left; reflexivity | split; assumption].
      * right. split; [right; assumption|]. split; [assumption | lia].
    + intros c [->|Hin] Hok; [|apply Hmax; assumption].
      assert (length c <= length (resolve_peer best0 (Some c)))%nat; [|lia].
      unfold resolve_peer. unfold passes_resolve_check in Hok. rewrite Hok.
      destruct (Nat.ltb_spec (length best0) (length c)); lia.
Qed.

Lemma resolve_cases (answers : list (option (list Block))) (bc : Blockchain) :
  let best := fold_left resolve_peer answers (chain bc) in
  resolve answers bc =
  match replaceChain best bc with
  | Ret (replaced, bc') => (Resolved replaced (length (chain bc')), bc')
  | Throw e => (ServerError e, bc)
  end.
Proof. reflexivity. Qed.

(** When every fetched candidate that passes the test of the handler has
    consecutive indices, resolve replaces the chain exactly when some
    fetched candidate is valid and longer than the chain. *)
Lemma resolve_replaces_iff (answers : list (option (list Block)))
    (bc : Blockchain) :
  (forall c, In (Some c) answers -> passes_resolve_check c ->
             isChainValid c = Ret true) ->
  (exists n bc', resolve answers bc = (Resolved true n, bc')) <->
  (exists c, In (Some c) answers /\ isChainValid c = Ret true /\
             (length (chain bc) < length c)%nat).
Proof.
  intros Hgood. rewrite resolve_cases.
  pose proof (bestChain_spec answers (chain bc)) as Hbest. simpl in Hbest.
  set (best := fold_left resolve_peer answers (chain bc)) in *.
  destruct Hbest as (Hcase & Hlen & Hmax). split.
  - intros (n & bc' & H).
    destruct (replaceChain best bc) as [[[|] st]|] eqn:E; try discriminate.
    apply replaceChain_true_iff in E as (Hlt & Hv & _).
    exists best.
    destruct Hcase as [Heq|(Hin & _ & _)]; [rewrite Heq in Hlt; lia|].
    auto.
  - intros (c & Hin & Hv & Hlt).
    assert (passes_resolve_check c) as Hok
      by (apply isChainValid_resolve_check in Hv; tauto).
    specialize (Hmax c Hin Hok).
    destruct Hcase as [Heq|(Hbin & Hbok & Hblt)]; [rewrite Heq in Hmax; lia|].
    assert (replaceChain best bc = Ret (true, save (set_chain best bc))) as ->.
    { apply replaceChain_true_iff. split; [lia|]. split; [|reflexivity].
      apply Hgood; assumption. }
    eauto.
Qed.

(** C3 at the peers' answers [shadow3] then [good3]: [good3] passes
    isChainValid and is longer than the chain of [node0], and resolve does
    not replace the chain. [shadow3] passes the test written in the handler,
    which leaves the index out, and is retained; [good3] is not longer than
    it; replaceChain then refuses [shadow3]. In the other order the chain
    is replaced by [good3]. *)
Theorem resolve_shadowed_by_misindexed_chain :
  isChainValid good3 = Ret true /\
  (length (chain node0) < length good3)%nat /\
  isChainValid shadow3 = Ret false /\
  passes_resolve_check shadow3 /\
  fold_left resolve_peer [Some shadow3; Some good3] (chain node0) = shadow3 /\
  resolve [Some shadow3; Some good3] node0 = (Resolved false 1, node0) /\
  resolve [Some good3; Some shadow3] node0
  = (Resolved true 3, mkBlockchain good3 3 good3).
Proof.
  unfold passes_resolve_check. vm_compute.
  repeat split; reflexivity || lia.
Qed.

(** ** Blocks of difficulty 0 *)

Lemma isChainValid_app (s : list Block) (t b : Block) :
  s !! (length s - 1)%nat = Some t -> isChainValid s = Ret true ->
  isValidNewBlock b t = Ret true ->
  isChainValid (s ++ [b]) = Ret true.
Proof.
  intros Ht Hs Hb. apply isChainValid_true_iff in Hs as [Hne Hs].
  apply isChainValid_true_iff. split; [destruct s; discriminate|].
  intros i c p Hi Hc Hp.
  destruct (snoc_pair s t b c p i Ht Hi Hc Hp) as [[Hc' Hp']|[-> ->]].
  - exact (Hs i c p Hi Hc' Hp').
  - exact Hb.
Qed.

(** C9: a block of difficulty 0 whose index, link and digest agree with
    its parent is a valid successor, whatever the digest looks like; the
    receive handler appends it on any node whose tip is that parent,
    whatever the default difficulty of the node; appended to a valid chain
    that ends in the parent it gives a valid chain, which passes the test of
    the resolve handler and which replaceChain and resolve install on any
    node with a shorter chain. *)
Theorem zero_difficulty_accepted (b t : Block) :
  index b = index t + 1 -> prevHash b = hash t ->
  calculateHash_of b = hash b -> difficulty b = 0 ->
  isValidNewBlock b t = Ret true /\
  (forall tip_chain dd db,
     let bc := mkBlockchain tip_chain dd db in
     getLatestBlock bc = Some t ->
     receive_block b bc
     = (Adopted (index b),
        mkBlockchain (tip_chain ++ [b]) dd (tip_chain ++ [b]))) /\
  (forall s, s !! (length s - 1)%nat = Some t -> isChainValid s = Ret true ->
     isChainValid (s ++ [b]) = Ret true /\
     passes_resolve_check (s ++ [b]) /\
     forall local dd db,
       let bc := mkBlockchain local dd db in
       (length local <= length s)%nat ->
       replaceChain (s ++ [b]) bc
       = Ret (true, mkBlockchain (s ++ [b]) dd (s ++ [b])) /\
       resolve [Some (s ++ [b])] bc
       = (Resolved true (length s + 1),
          mkBlockchain (s ++ [b]) dd (s ++ [b]))).
Proof.
  intros Hi Hl Hh Hd.
  assert (isValidNewBlock b t = Ret true) as Hv.
  { apply isValidNewBlock_true_iff. unfold successor_conditions.
    rewrite Hd. repeat split; (assumption || lia). }
  split; [exact Hv|]. split.
  - intros tip_chain dd db bc Ht.
    rewrite (receive_block_cases b t bc Ht), Hv. reflexivity.
  - intros s Ht Hs.
    assert (isChainValid (s ++ [b]) = Ret true) as Hsb
      by (eapply isChainValid_app; eassumption).
    assert (passes_resolve_check (s ++ [b])) as Hchk
      by (apply isChainValid_resolve_check in Hsb; tauto).
    split; [exact Hsb|]. split; [exact Hchk|].
    intros local dd db bc Hlen.
    assert (replaceChain (s ++ [b]) bc
            = Ret (true, mkBlockchain (s ++ [b]) dd (s ++ [b]))) as Hrep.
    { apply replaceChain_true_iff. split; [|split; [exact Hsb | reflexivity]].
      simpl. rewrite length_app. simpl. lia. }
    split; [exact Hrep|].
    unfold resolve. simpl. unfold resolve_peer.
    assert ((length local <? length (s ++ [b]))%nat = true) as ->
      by (apply Nat.ltb_lt; rewrite length_app; simpl; lia).
    unfold passes_resolve_check in Hchk. rewrite Hchk, Hrep. simpl.
    rewrite length_app. reflexivity.
Qed.

Lemma zero_difficulty_accepted_witness :
  index easy1 = index genesis0 + 1 /\ prevHash easy1 = hash genesis0 /\
  calculateHash_of easy1 = hash easy1 /\ difficulty easy1 = 0 /\
  leading_zeros (hash easy1) = 0%nat /\
  isValidNewBlock easy1 genesis0 = Ret true /\
  receive_block easy1 node0
  = (Adopted 1, mkBlockchain [genesis0; easy1] 3 [genesis0; easy1]).
Proof.
  assert (calculateHash_of easy1 = hash easy1) as Hh
    by (vm_compute; reflexivity).
  destruct (zero_difficulty_accepted easy1 genesis0 eq_refl eq_refl Hh eq_refl)
    as (Hv & Hrecv & _).
  split; [reflexivity|]. split; [reflexivity|]. split; [exact Hh|].
  split; [reflexivity|]. split; [reflexivity|]. split; [exact Hv|].
  exact (Hrecv [genesis0] 3 [genesis0] eq_refl).
Defined.

(** ** JSON.stringify loses nothing *)


(** *** Strings *)






(** *** Numbers *)






(** *** Values *)











(** ** A changed field breaks the chain *)






(** ** normalizePeerUrl *)

Lemma all_slashes_repeat (k : nat) : all_slashes (repeat_string "/" k) = true.
Proof. induction k as [|k IH]; simpl; [reflexivity | exact IH]. Qed.

Lemma all_slashes_is_repeat (s : string) :
  all_slashes s = true -> s = repeat_string "/" (String.length s).
Proof.
  induction s as [|c r IH]; simpl; [reflexivity|].
  destruct (Ascii.eqb_spec c "/") as [->|]; simpl; [|discriminate].
  intros H. rewrite <- (IH H). reflexivity.
Qed.

Lemma endsWith_cons (c : ascii) (r suffix : string) :
  endsWith (String c r) suffix
  = (String c r =? suffix)%string || endsWith r suffix.
Proof. reflexivity. Qed.

Lemma endsWith_tail (c : ascii) (r suffix : string) :
  endsWith r suffix = true -> endsWith (String c r) suffix = true.
Proof. intros H. rewrite endsWith_cons, H. apply orb_true_r. Qed.

Lemma slashes_end_in_slash (r : string) :
  all_slashes r = true -> endsWith (String "/" r) "/" = true.
Proof.
  induction r as [|c r IH]; [reflexivity|]. simpl all_slashes.
  destruct (Ascii.eqb_spec c "/") as [->|]; simpl andb; [|discriminate].
  intros H. apply endsWith_tail. exact (IH H).
Qed.

Lemma slashes_to_end_endsWith (s : string) :
  slashes_to_end s = true -> endsWith s "/" = true.
Proof.
  destruct s as [|c r]; simpl slashes_to_end; [discriminate|].
  destruct (Ascii.eqb_spec c "/") as [->|]; simpl andb; [|discriminate].
  apply slashes_end_in_slash.
Qed.

Lemma normalizePeerUrl_unfold (url : string) :
  normalizePeerUrl url =
  if slashes_to_end url then EmptyString
  else match url with
       | EmptyString => EmptyString
       | String c r => String c (normalizePeerUrl r)
       end.
Proof. destruct url; reflexivity. Qed.

Lemma normalizePeerUrl_decompose (url : string) :
  exists k, url = (normalizePeerUrl url ++ repeat_string "/" k)%string.
Proof.
  induction url as [|c r [k IH]]; [exists 0%nat; reflexivity|].
  rewrite normalizePeerUrl_unfold.
  destruct (slashes_to_end (String c r)) eqn:E.
  - exists (S (String.length r)). simpl in E.
    destruct (Ascii.eqb_spec c "/") as [->|]; simpl in E; [|discriminate].
    simpl. rewrite <- (all_slashes_is_repeat r E). reflexivity.
  - exists k. simpl. rewrite <- IH. reflexivity.
Qed.

Lemma normalizePeerUrl_empty (r : string) :
  normalizePeerUrl r = EmptyString -> all_slashes r = true.
Proof.
  intros H. destruct (normalizePeerUrl_decompose r) as [k Hk].
  rewrite H in Hk. simpl in Hk. rewrite Hk. apply all_slashes_repeat.
Qed.

Lemma normalizePeerUrl_no_slash (url : string) :
  endsWith (normalizePeerUrl url) "/" = false.
Proof.
  induction url as [|c r IH]; [reflexivity|].
  rewrite normalizePeerUrl_unfold.
  destruct (slashes_to_end (String c r)) eqn:E; [reflexivity|].
  rewrite endsWith_cons, IH, orb_false_r.
  destruct (String.eqb_spec (String c (normalizePeerUrl r)) "/") as [H|];
    [|reflexivity].
  inversion H as [[Hc Hr]]. subst c.
  simpl in E. rewrite (normalizePeerUrl_empty r Hr) in E. discriminate.
Qed.

Lemma normalizePeerUrl_fixed (url : string) :
  endsWith url "/" = false -> normalizePeerUrl url = url.
Proof.
  induction url as [|c r IH]; [reflexivity|]. intros H.
  rewrite normalizePeerUrl_unfold.
  destruct (slashes_to_end (String c r)) eqn:E.
  - apply slashes_to_end_endsWith in E. congruence.
  - rewrite endsWith_cons in H. apply orb_false_iff in H as [_ H].
    rewrite (IH H). reflexivity.
Qed.

(** X1: normalizePeerUrl cuts the trailing slashes off, all of them and
    nothing else: the text is the result followed by slashes only, the
    result does not end in a slash, a text that does not end in a slash is
    returned as it is, and normalizing twice changes nothing more. *)
Theorem normalizePeerUrl_strips (url : string) :
  (exists k, url = (normalizePeerUrl url ++ repeat_string "/" k)%string) /\
  endsWith (normalizePeerUrl url) "/" = false /\
  (endsWith url "/" = false <-> normalizePeerUrl url = url) /\
  normalizePeerUrl (normalizePeerUrl url) = normalizePeerUrl url.
Proof.
  split; [apply normalizePeerUrl_decompose|].
  split; [apply normalizePeerUrl_no_slash|].
  split.
  - split; [apply normalizePeerUrl_fixed|].
    intros H. rewrite <- H. apply normalizePeerUrl_no_slash.
  - apply normalizePeerUrl_fixed, normalizePeerUrl_no_slash.
Qed.

(** ** POST /api/peers *)

Lemma includes_elem_of (l : list string) (u : string) :
  includes l u = true <-> u ∈ l.
Proof.
  unfold includes. rewrite existsb_exists, list_elem_of_In. split.
  - intros (x & Hx & E). apply String.eqb_eq in E. subst. exact Hx.
  - intros H. exists u. split; [exact H | apply String.eqb_refl].
Qed.

(** What the loop does with one entry that is a string. *)
Lemma peers_loop_string (PORT : Z) (p : string) (rest : list JSON)
    (known : list string) (added : nat) :
  let url := normalizePeerUrl p in
  (url <> EmptyString /\ (url ∉ known) /\
   endsWith url (port_suffix PORT) = false /\
   peers_loop PORT (JStr p :: rest) known added
   = peers_loop PORT rest (known ++ [url]) (S added)) \/
  ((url = EmptyString \/ url ∈ known \/
    endsWith url (port_suffix PORT) = true) /\
   peers_loop PORT (JStr p :: rest) known added
   = peers_loop PORT rest known added).
Proof.
  intros url. simpl. fold url.
  destruct (String.eqb_spec url "") as [E|E]; simpl; [right; auto|].
  destruct (includes known url) eqn:I; simpl.
  { right. apply includes_elem_of in I. auto. }
  destruct (endsWith url (port_suffix PORT)) eqn:P; simpl; [right; auto|].
  left. repeat split; try assumption.
  intros H. apply includes_elem_of in H. congruence.
Qed.

Lemma peers_loop_strings (PORT : Z) (items : list JSON) :
  Forall is_string items ->
  forall known added,
  exists new,
    peers_loop PORT items known added
    = (known ++ new, Ret (added + length new)%nat) /\
    NoDup new /\
    (forall u, u ∈ new ->
       (u ∉ known) /\ u <> EmptyString /\ endsWith u "/" = false /\
       endsWith u (port_suffix PORT) = false /\
       exists p, JStr p ∈ items /\ u = normalizePeerUrl p) /\
    (forall p, JStr p ∈ items ->
       normalizePeerUrl p <> EmptyString ->
       endsWith (normalizePeerUrl p) (port_suffix PORT) = false ->
       normalizePeerUrl p ∈ known ++ new).
Proof.
  induction 1 as [|v rest [p ->] Hrest IH]; intros known added.
  - exists []. simpl. rewrite app_nil_r, Nat.add_0_r.
    split; [reflexivity|]. split; [constructor|].
    split; intros x Hx; inversion Hx.
  - destruct (peers_loop_string PORT p rest known added)
      as [(Hne & Hnew & Hport & ->)|(Hskip & ->)].
    + destruct (IH (known ++ [normalizePeerUrl p]) (S added))
        as (new & -> & Hnd & Hall & Hcomplete).
      exists (normalizePeerUrl p :: new).
      rewrite <- app_assoc. simpl.
      split; [f_equal; f_equal; lia|].
      split.
      { constructor; [|exact Hnd]. intros Hin.
        apply Hall in Hin as [Hin _]. apply Hin.
        rewrite elem_of_app, list_elem_of_singleton. auto. }
      split.
      * intros u [->|Hu]%elem_of_cons.
        -- split; [exact Hnew|]. split; [exact Hne|].
           split; [apply normalizePeerUrl_no_slash|]. split; [exact Hport|].
           exists p. split; [left | reflexivity].
        -- destruct (Hall u Hu) as (Hk & H1 & H2 & H3 & q & Hq & ->).
           split; [intros Hin; apply Hk; rewrite elem_of_app; auto|].
           split; [exact H1|]. split; [exact H2|]. split; [exact H3|].
           exists q. split; [right; exact Hq | reflexivity].
      * intros q [Hq|Hq]%elem_of_cons Hq1 Hq2.
        -- inversion Hq; subst q. rewrite elem_of_app, elem_of_cons. auto.
        -- specialize (Hcomplete q Hq Hq1 Hq2).
           rewrite <- app_assoc in Hcomplete. exact Hcomplete.
    + destruct (IH known added) as (new & -> & Hnd & Hall & Hcomplete).
      exists new. split; [reflexivity|]. split; [exact Hnd|]. split.
      * intros u Hu.
        destruct (Hall u Hu) as (Hk & H1 & H2 & H3 & q & Hq & ->).
        split; [exact Hk|]. split; [exact H1|]. split; [exact H2|].
        split; [exact H3|]. exists q. split; [right; exact Hq | reflexivity].
      * intros q [Hq|Hq]%elem_of_cons Hq1 Hq2; [|apply Hcomplete; assumption].
        inversion Hq; subst q. rewrite elem_of_app. left.
        destruct Hskip as [E|[Hin|E]]; [contradiction | exact Hin | congruence].
Qed.

(** X2: when every entry of the peers array of the body is a string (or
    the body has no such array), POST /api/peers answers 200: the known
    peers stay in place and the new ones follow them; a new peer is the
    normalized form of an entry, not empty, not known before, listed once,
    without a trailing slash and not ending in the port of the node; every
    entry whose normalized form is not empty and does not end in that port
    is in the list afterwards; the count answered is the number of new
    peers, and the list is written to the peers file. *)
Theorem post_peers_adds (PORT : Z) (body : JSON) (pb : PeerBook) :
  Forall is_string (body_peers body) ->
  exists new,
    post_peers PORT body pb
    = (PeersAdded (length new) (peers pb ++ new),
       mkPeerBook (peers pb ++ new) (peers pb ++ new)) /\
    NoDup new /\
    (forall u, u ∈ new ->
       (u ∉ peers pb) /\ u <> EmptyString /\ endsWith u "/" = false /\
       endsWith u (port_suffix PORT) = false /\
       exists p, JStr p ∈ body_peers body /\ u = normalizePeerUrl p) /\
    (forall p, JStr p ∈ body_peers body ->
       normalizePeerUrl p <> EmptyString ->
       endsWith (normalizePeerUrl p) (port_suffix PORT) = false ->
       normalizePeerUrl p ∈ peers pb ++ new).
Proof.
  intros Hstr.
  destruct (peers_loop_strings PORT (body_peers body) Hstr (peers pb) 0)
    as (new & Hloop & Hrest).
  exists new. split; [|exact Hrest].
  unfold post_peers. fold (body_peers body). rewrite Hloop. reflexivity.
Qed.

Lemma post_peers_adds_witness :
  Forall is_string
    (body_peers (JObj [("peers"%string,
                        JArr [JStr "http://a:4002/"; JStr "http://a:4002";
                              JStr "http://b:4001"; JStr "/";
                              JStr "http://c:4003//"])])) /\
  exists new,
    post_peers 4001
      (JObj [("peers"%string,
              JArr [JStr "http://a:4002/"; JStr "http://a:4002";
                    JStr "http://b:4001"; JStr "/"; JStr "http://c:4003//"])])
      (mkPeerBook ["http://c:4003"%string] [])
    = (PeersAdded (length new) (["http://c:4003"%string] ++ new),
       mkPeerBook (["http://c:4003"%string] ++ new)
                  (["http://c:4003"%string] ++ new)).
Proof.
  assert (Forall is_string
            (body_peers
               (JObj [("peers"%string,
                       JArr [JStr "http://a:4002/"; JStr "http://a:4002";
                             JStr "http://b:4001"; JStr "/";
                             JStr "http://c:4003//"])]))) as Hstr.
  { repeat constructor; eexists; reflexivity. }
  split; [exact Hstr|].
  destruct (post_peers_adds 4001 _ (mkPeerBook ["http://c:4003"%string] [])
              Hstr) as (new & Heq & _).
  exists new. exact Heq.
Defined.

Example post_peers_example :
  post_peers 4001
    (JObj [("peers"%string,
            JArr [JStr "http://a:4002/"; JStr "http://a:4002";
                  JStr "http://b:4001"; JStr "/"; JStr "http://c:4003//"])])
    (mkPeerBook ["http://c:4003"%string] [])
  = (PeersAdded 1 ["http://c:4003"%string; "http://a:4002"%string],
     mkPeerBook ["http://c:4003"%string; "http://a:4002"%string]
                ["http://c:4003"%string; "http://a:4002"%string]).
Proof. vm_compute. reflexivity. Qed.

Lemma peers_loop_noop (PORT : Z) (items : list JSON) (known : list string)
    (added : nat) :
  Forall is_string items ->
  (forall p, JStr p ∈ items ->
     normalizePeerUrl p = EmptyString \/ normalizePeerUrl p ∈ known \/
     endsWith (normalizePeerUrl p) (port_suffix PORT) = true) ->
  peers_loop PORT items known added = (known, Ret added).
Proof.
  induction 1 as [|v rest [p ->] Hrest IH]; intros Hskip; [reflexivity|].
  destruct (peers_loop_string PORT p rest known added)
    as [(Hne & Hnew & Hport & _)|(_ & ->)].
  - exfalso. destruct (Hskip p) as [E|[E|E]]; [left | | | congruence];
      contradiction.
  - apply IH. intros q Hq. apply Hskip. right. exact Hq.
Qed.

(** X3: sending the same peers again adds nothing: after a request whose
    entries are all strings, the same request answers 200 with a count of 0
    and leaves the list and the file as they are. *)
Theorem post_peers_twice (PORT : Z) (body : JSON) (pb : PeerBook) :
  Forall is_string (body_peers body) ->
  let pb1 := snd (post_peers PORT body pb) in
  post_peers PORT body pb1 = (PeersAdded 0 (peers pb1), pb1).
Proof.
  intros Hstr pb1.
  destruct (post_peers_adds PORT body pb Hstr) as (new & Heq & _ & _ & Hin).
  subst pb1. rewrite Heq. simpl.
  unfold post_peers. fold (body_peers body). simpl.
  rewrite (peers_loop_noop PORT (body_peers body) (peers pb ++ new) 0 Hstr).
  - reflexivity.
  - intros p Hp.
    destruct (String.eqb_spec (normalizePeerUrl p) "") as [E|E]; [auto|].
    destruct (endsWith (normalizePeerUrl p) (port_suffix PORT)) eqn:P;
      [auto|].
    right. left. apply Hin; assumption.
Qed.

Lemma post_peers_twice_witness :
  Forall is_string
    (body_peers (JObj [("peers"%string, JArr [JStr "http://a:4002/"])])) /\
  post_peers 4001 (JObj [("peers"%string, JArr [JStr "http://a:4002/"])])
    (snd (post_peers 4001
            (JObj [("peers"%string, JArr [JStr "http://a:4002/"])])
            (mkPeerBook [] [])))
  = (PeersAdded 0 ["http://a:4002"%string],
     mkPeerBook ["http://a:4002"%string] ["http://a:4002"%string]).
Proof.
  assert (Forall is_string
            (body_peers (JObj [("peers"%string,
                                JArr [JStr "http://a:4002/"])]))) as Hstr.
  { repeat constructor; eexists; reflexivity. }
  split; [exact Hstr|].
  exact (post_peers_twice 4001 _ (mkPeerBook [] []) Hstr).
Defined.

Lemma peers_loop_app (PORT : Z) (good rest : list JSON) :
  Forall is_string good ->
  forall known added,
    peers_loop PORT (good ++ rest) known added
    = match peers_loop PORT good known added with
      | (known', Ret added') => peers_loop PORT rest known' added'
      | (known', Throw e) => (known', Throw e)
      end.
Proof.
  induction 1 as [|v good [p ->] Hgood IH]; intros known added;
    [reflexivity|].
  simpl.
  destruct (negb (normalizePeerUrl p =? "")%string
            && negb (includes known (normalizePeerUrl p))
            && negb (endsWith (normalizePeerUrl p) (port_suffix PORT)));
    apply IH.
Qed.

(** X4: an entry of the peers array that is no string ends the request in
    a TypeError which the handler does not catch: the entries before it
    have been handled, so the list in memory is the one that a request with
    those entries alone leaves, and the peers file is not written. *)
Theorem post_peers_bad_entry (PORT : Z) (body : JSON) (pb : PeerBook)
    (good rest : list JSON) (bad : JSON) :
  body_peers body = good ++ bad :: rest ->
  Forall is_string good -> ~ is_string bad ->
  post_peers PORT body pb
  = (PeersUncaught TypeError,
     mkPeerBook
       (peers (snd (post_peers PORT (JObj [("peers"%string, JArr good)]) pb)))
       (peersFile pb)).
Proof.
  intros Hbody Hgood Hbad.
  unfold post_peers at 1. fold (body_peers body).
  rewrite Hbody, (peers_loop_app PORT good (bad :: rest) Hgood).
  destruct (peers_loop_strings PORT good Hgood (peers pb) 0)
    as (new & Hloop & _).
  unfold post_peers. simpl body_member. cbv iota. rewrite Hloop.
  destruct bad as [| | | s | |]; try reflexivity.
  exfalso. apply Hbad. exists s. reflexivity.
Qed.

Lemma post_peers_bad_entry_witness :
  body_peers (JObj [("peers"%string,
                     JArr [JStr "http://a:4002/"; JNum 3;
                           JStr "http://c:4003"])])
  = [JStr "http://a:4002/"] ++ JNum 3 :: [JStr "http://c:4003"] /\
  Forall is_string [JStr "http://a:4002/"] /\ ~ is_string (JNum 3) /\
  post_peers 4001
    (JObj [("peers"%string,
            JArr [JStr "http://a:4002/"; JNum 3; JStr "http://c:4003"])])
    (mkPeerBook [] [])
  = (PeersUncaught TypeError, mkPeerBook ["http://a:4002"%string] []).
Proof.
  assert (Forall is_string [JStr "http://a:4002/"]) as Hgood
    by (repeat constructor; eexists; reflexivity).
  assert (~ is_string (JNum 3)) as Hbad by (intros [s Hs]; discriminate).
  split; [reflexivity|]. split; [exact Hgood|]. split; [exact Hbad|].
  exact (post_peers_bad_entry 4001
           (JObj [("peers"%string,
                   JArr [JStr "http://a:4002/"; JNum 3;
                         JStr "http://c:4003"])])
           (mkPeerBook [] [])
           [JStr "http://a:4002/"] [JStr "http://c:4003"] (JNum 3)
           eq_refl Hgood Hbad).
Defined.

(** ** getBlock *)

(** The blocks of a valid chain count up from the index of the first. *)
Lemma valid_chain_index (s : list Block) (g : Block) :
  isChainValid s = Ret true -> s !! 0%nat = Some g ->
  forall i b, s !! i = Some b -> index b = index g + Z.of_nat i.
Proof.
  intros Hv Hg. apply isChainValid_true_iff in Hv as [_ Hpairs].
  induction i as [|i IH]; intros b Hb.
  - replace b with g by congruence. lia.
  - destruct (lookup_lt_is_Some_2 s i) as [p Hp].
    { apply lookup_lt_Some in Hb. lia. }
    assert (isValidNewBlock b p = Ret true) as Hbp.
    { apply (Hpairs (S i)); [lia | exact Hb |].
      replace (S i - 1)%nat with i by lia. exact Hp. }
    apply isValidNewBlock_true_iff in Hbp as [(Hi & _) _].
    rewrite Hi, (IH p Hp). lia.
Qed.

Lemma find_counting_up (s : list Block) :
  forall i0,
    (forall i b, s !! i = Some b -> index b = i0 + Z.of_nat i) ->
    forall n,
      find (fun b => index b =? n) s
      = if (i0 <=? n) && (n <? i0 + Z.of_nat (length s))
        then s !! Z.to_nat (n - i0) else None.
Proof.
  induction s as [|b r IH]; intros i0 Hidx n.
  - simpl find.
    destruct ((i0 <=? n) && (n <? i0 + Z.of_nat (length (@nil Block))));
      [symmetry; apply lookup_nil | reflexivity].
  - assert (index b = i0) as Hb by (rewrite (Hidx 0%nat b eq_refl); lia).
    assert (forall i x, r !! i = Some x -> index x = i0 + 1 + Z.of_nat i)
      as Hr by (intros i x Hx; rewrite (Hidx (S i) x Hx); lia).
    simpl find. rewrite (IH (i0 + 1) Hr n), Hb.
    replace (Z.of_nat (length (b :: r))) with (1 + Z.of_nat (length r))
      by (simpl length; lia).
    destruct (Z.eqb_spec i0 n) as [<-|Hne].
    + destruct (Z.leb_spec i0 i0); [|lia].
      destruct (Z.ltb_spec i0 (i0 + (1 + Z.of_nat (length r)))); [|lia].
      simpl. rewrite Z.sub_diag. reflexivity.
    + destruct (Z.leb_spec (i0 + 1) n), (Z.leb_spec i0 n); try lia;
        destruct (Z.ltb_spec n (i0 + 1 + Z.of_nat (length r))),
          (Z.ltb_spec n (i0 + (1 + Z.of_nat (length r)))); try lia;
        simpl; try reflexivity.
      replace (Z.to_nat (n - i0)) with (S (Z.to_nat (n - (i0 + 1)))) by lia.
      reflexivity.
Qed.

(** X5: on a valid chain, getBlock with a number finds the block at the
    position that the number has above the index of the first block, and
    answers null for every number outside the chain. *)
Theorem getBlock_by_index (bc : Blockchain) (g : Block) (n : Z) :
  isChainValid (chain bc) = Ret true -> chain bc !! 0%nat = Some g ->
  getBlock (Some (JNum n)) bc
  = if (index g <=? n) && (n <? index g + Z.of_nat (length (chain bc)))
    then chain bc !! Z.to_nat (n - index g)
    else None.
Proof.
  intros Hv Hg. unfold getBlock.
  apply find_counting_up. exact (valid_chain_index (chain bc) g Hv Hg).
Qed.

Lemma getBlock_by_index_witness :
  isChainValid (chain node2) = Ret true /\
  chain node2 !! 0%nat = Some genesis0 /\
  getBlock (Some (JNum 2)) node2 = Some block2 /\
  getBlock (Some (JNum 3)) node2 = None /\
  getBlock (Some (JNum (-1))) node2 = None.
Proof.
  assert (isChainValid (chain node2) = Ret true) as Hv
    by (vm_compute; reflexivity).
  split; [exact Hv|]. split; [reflexivity|].
  pose proof (fun n => getBlock_by_index node2 genesis0 n Hv eq_refl) as H.
  split; [exact (H 2)|]. split; [exact (H 3) | exact (H (-1))].
Defined.

Lemma find_app_l {A : Type} (f : A -> bool) (l1 l2 : list A) (x : A) :
  find f l1 = Some x -> find f (l1 ++ l2) = Some x.
Proof.
  induction l1 as [|a l1 IH]; simpl; [discriminate|].
  destruct (f a); [auto | exact IH].
Qed.

Lemma find_app_r {A : Type} (f : A -> bool) (l1 l2 : list A) :
  (forall x, x ∈ l1 -> f x = false) -> find f (l1 ++ l2) = find f l2.
Proof.
  induction l1 as [|a l1 IH]; simpl; intros H; [reflexivity|].
  rewrite (H a) by left. apply IH. intros x Hx. apply H. right. exact Hx.
Qed.

Lemma getBlock_push (key : option JSON) (b x : Block) (bc : Blockchain) :
  getBlock key bc = Some x -> getBlock key (save (push b bc)) = Some x.
Proof.
  unfold getBlock. simpl.
  destruct key as [[| | n | s | |]|]; try discriminate; apply find_app_l.
Qed.

(** X6: a block that mineBlock has appended to a valid chain is found by
    getBlock under its index, and under its hash when no earlier block has
    that hash; every key that found a block before finds the same block;
    a key that is neither a number nor a string finds nothing. *)
Theorem getBlock_after_mineBlock (fuel : nat) (now : Z) (dat : JSON)
    (supplied : option JSON) (bc bc' : Blockchain) (b : Block) :
  isChainValid (chain bc) = Ret true ->
  mineBlock fuel now dat supplied bc = Done (Ret (b, bc')) ->
  getBlock (Some (JNum (index b))) bc' = Some b /\
  ((forall x, x ∈ chain bc -> hash x <> hash b) ->
   getBlock (Some (JStr (hash b))) bc' = Some b) /\
  (forall key x, getBlock key bc = Some x -> getBlock key bc' = Some x) /\
  (forall key, (forall n, key <> Some (JNum n)) ->
               (forall s, key <> Some (JStr s)) -> getBlock key bc' = None).
Proof.
  intros Hv Hmine.
  apply mineBlock_Ret in Hmine
    as (prev & Hprev & Hi & _ & _ & _ & _ & Hvalid & ->).
  pose proof (getLatestBlock_lookup bc prev Hprev) as [Htip Hlen].
  assert (isChainValid (chain bc ++ [b]) = Ret true) as Hv'
    by (eapply isChainValid_app; eassumption).
  destruct (lookup_lt_is_Some_2 (chain bc) 0) as [g Hg]; [lia|].
  assert (index prev = index g + Z.of_nat (length (chain bc) - 1)) as Hip
    by (apply (valid_chain_index (chain bc) g Hv Hg); exact Htip).
  split; [|split; [|split]].
  - rewrite (getBlock_by_index (save (push b bc)) g (index b) Hv').
    2: { simpl. rewrite lookup_app_l by lia. exact Hg. }
    simpl. rewrite length_app. simpl.
    destruct (Z.leb_spec (index g) (index b)); [|lia].
    destruct (Z.ltb_spec (index b)
                (index g + Z.of_nat (length (chain bc) + 1))); [|lia].
    simpl.
    replace (Z.to_nat (index b - index g))
      with (length (chain bc) + 0)%nat by lia.
    rewrite lookup_app_r by lia.
    replace (length (chain bc) + 0 - length (chain bc))%nat with 0%nat by lia.
    reflexivity.
  - intros Hfresh. unfold getBlock. simpl.
    rewrite find_app_r.
    + simpl. rewrite String.eqb_refl. reflexivity.
    + intros x Hx. apply String.eqb_neq. apply Hfresh. exact Hx.
  - intros key x. apply getBlock_push.
  - intros key Hn Hs. unfold getBlock.
    destruct key as [[| | n | s | |]|]; try reflexivity;
      [destruct (Hn n) | destruct (Hs s)]; reflexivity.
Qed.

Lemma getBlock_after_mineBlock_witness :
  isChainValid (chain node0) = Ret true /\
  mineBlock 100 1700000000001 (JObj [("msg"%string, JStr "a")])
            (Some (JNum 1)) node0
  = Done (Ret (block1, save (push block1 node0))) /\
  getBlock (Some (JNum 1)) (save (push block1 node0)) = Some block1.
Proof.
  assert (mineBlock 100 1700000000001 (JObj [("msg"%string, JStr "a")])
                    (Some (JNum 1)) node0
          = Done (Ret (block1, save (push block1 node0)))) as Hrun
    by (vm_compute; reflexivity).
  split; [reflexivity|]. split; [exact Hrun|].
  exact (proj1 (getBlock_after_mineBlock
                  100 1700000000001 (JObj [("msg"%string, JStr "a")])
                  (Some (JNum 1)) node0 (save (push block1 node0)) block1
                  eq_refl Hrun)).
Defined.

(** ** The shape of a digest *)

Lemma round_length (s : list Z) (kw : Z * Z) :
  length s = 8%nat -> length (SHA256.round s kw) = 8%nat.
Proof.
  do 9 (destruct s as [|? s]; try discriminate). reflexivity.
Qed.

Lemma rounds_length (kws : list (Z * Z)) (s : list Z) :
  length s = 8%nat -> length (fold_left SHA256.round kws s) = 8%nat.
Proof.
  revert s. induction kws as [|kw kws IH]; intros s Hs; [exact Hs|].
  simpl. apply IH, round_length, Hs.
Qed.

Lemma compress_length (h block : list Z) :
  length h = 8%nat -> length (SHA256.compress h block) = 8%nat.
Proof.
  intros Hh. unfold SHA256.compress.
  rewrite length_map, length_combine, rounds_length by exact Hh. lia.
Qed.

Lemma blocks_length (n : nat) (h ws : list Z) :
  length h = 8%nat -> length (SHA256.blocks n h ws) = 8%nat.
Proof.
  revert h ws. induction n as [|n IH]; intros h ws Hh; [exact Hh|].
  simpl. destruct ws; [exact Hh|]. apply IH, compress_length, Hh.
Qed.

Lemma hexdigit_is_hex (x : Z) :
  is_hex (SHA256.hexdigit (Z.land x 0xf)) = true.
Proof.
  change 0xf with (Z.ones 4). rewrite Z.land_ones by lia.
  pose proof (Z.mod_pos_bound x (2 ^ 4) eq_refl) as H.
  set (m := x mod 2 ^ 4) in *.
  assert (m = 0 \/ m = 1 \/ m = 2 \/ m = 3 \/ m = 4 \/ m = 5 \/ m = 6 \/
          m = 7 \/ m = 8 \/ m = 9 \/ m = 10 \/ m = 11 \/ m = 12 \/ m = 13 \/
          m = 14 \/ m = 15) as Hm by lia.
  repeat (destruct Hm as [->|Hm]; [reflexivity|]). rewrite Hm. reflexivity.
Qed.

Lemma hex32_is_hex (x : Z) (l : list nat) :
  forallb is_hex
    (map (fun i => SHA256.hexdigit (Z.land (Z.shiftr x (4 * Z.of_nat i)) 0xf))
         l) = true.
Proof.
  induction l as [|i l IH]; [reflexivity|].
  cbn [map forallb]. rewrite hexdigit_is_hex. exact IH.
Qed.

Lemma hexdigest_shape (ws : list Z) :
  length (flat_map SHA256.hex32 ws) = (8 * length ws)%nat /\
  forallb is_hex (flat_map SHA256.hex32 ws) = true.
Proof.
  induction ws as [|w ws [IHl IHh]]; [split; reflexivity|].
  change (flat_map SHA256.hex32 (w :: ws))
    with (SHA256.hex32 w ++ flat_map SHA256.hex32 ws).
  rewrite length_app, forallb_app, IHl, IHh. split.
  - unfold SHA256.hex32. rewrite length_map, length_rev, length_seq.
    cbn [length]. lia.
  - unfold SHA256.hex32. rewrite hex32_is_hex. reflexivity.
Qed.

Lemma string_of_list_shape (l : list ascii) :
  String.length (string_of_list_ascii l) = length l /\
  all_hex (string_of_list_ascii l) = forallb is_hex l.
Proof.
  induction l as [|c l [IHl IHh]]; [split; reflexivity|].
  simpl. rewrite IHl, IHh. split; reflexivity.
Qed.

Lemma sha256_hex_shape (payload : list ascii) :
  String.length (sha256_hex payload) = 64%nat /\
  all_hex (sha256_hex payload) = true.
Proof.
  unfold sha256_hex, SHA256.hexdigest.
  destruct (string_of_list_shape
              (flat_map SHA256.hex32
                 (SHA256.digest
                    (map (fun c => Z.of_N (N_of_ascii c)) payload))))
    as [-> ->].
  destruct (hexdigest_shape
              (SHA256.digest (map (fun c => Z.of_N (N_of_ascii c)) payload)))
    as [-> ->].
  split; [|reflexivity].
  unfold SHA256.digest. rewrite blocks_length; reflexivity.
Qed.

Lemma leading_zeros_length (s : string) :
  (leading_zeros s <= String.length s)%nat.
Proof.
  induction s as [|c r IH]; simpl; [lia|]. destruct (Ascii.eqb c "0"); lia.
Qed.

Lemma calculateHash_length (idx ts : Z) (dat : JSON) (ph : string) (n d : Z) :
  String.length (calculateHash idx ts dat ph n d) = 64%nat.
Proof. unfold calculateHash. apply sha256_hex_shape. Qed.

(** X7: calculateHash answers 64 characters, each a digit or a letter from
    a to f, whatever the fields; so a digest has at most 64 leading
    zeros. *)
Theorem calculateHash_shape (idx ts : Z) (dat : JSON) (ph : string)
    (n d : Z) :
  String.length (calculateHash idx ts dat ph n d) = 64%nat /\
  all_hex (calculateHash idx ts dat ph n d) = true /\
  (leading_zeros (calculateHash idx ts dat ph n d) <= 64)%nat.
Proof.
  split; [apply calculateHash_length|].
  split; [unfold calculateHash; apply sha256_hex_shape|].
  pose proof (leading_zeros_length (calculateHash idx ts dat ph n d)) as Hz.
  rewrite calculateHash_length in Hz. exact Hz.
Qed.

(** ** Targets that no digest meets *)





(** ** The block that mining returns *)




(** The nonce search itself raises nothing. *)
Lemma proofOfWork_loop_no_throw (fuel : nat) (idx ts : Z) (dat : JSON)
    (ph : string) (d : Z) (target : string) (start : Z) (e : exn) :
  proofOfWork_loop fuel idx ts dat ph d target start <> Done (Throw e).
Proof.
  revert start. induction fuel as [|fuel IH]; intros start; simpl;
    [discriminate|].
  destruct (startsWith _ _); [discriminate | apply IH].
Qed.

(** The check after mining does not fail. *)
Lemma extend_no_Error (fuel : nat) (now : Z) (dat : JSON) (d : Z)
    (prev : Block) (bc : Blockchain) (msg : string) (e : exn) :
  (let+ nh := proofOfWork fuel (index prev + 1) now dat (hash prev) d in
   let block :=
     mkBlock (index prev + 1) now dat (hash prev) (fst nh) d (snd nh) in
   Done (let* ok := isValidNewBlock block prev in
         if negb ok then Throw (Error msg)
         else Ret (block, save (push block bc))))
  = Done (Throw e) ->
  e = RangeError /\ d < 0.
Proof.
  destruct (proofOfWork fuel (index prev + 1) now dat (hash prev) d)
    as [[[n h]|e']|] eqn:E; simpl; try discriminate.
  - pose proof (proofOfWork_Ret _ _ _ _ _ _ _ _ E) as (Hd & _ & Hh & Hz).
    rewrite (mined_block_valid prev now dat d n h Hd Hh Hz). discriminate.
  - intros H. inversion H; subst e'.
    unfold proofOfWork in E. destruct (Z.lt_ge_cases d 0) as [Hd|Hd].
    + rewrite String_repeat_neg in E by exact Hd. simpl in E.
      inversion E. auto.
    + rewrite String_repeat_nonneg in E by exact Hd. simpl in E.
      exfalso. exact (proofOfWork_loop_no_throw _ _ _ _ _ _ _ _ _ E).
Qed.




(** X10: the check that setBlock and mineBlock make on the block they have
    just mined never fails: neither raises its Error. Both raise a
    TypeError exactly when the chain is empty, and a RangeError, before any
    search, when the chain is not empty and the difficulty they mine at is
    negative. *)
Theorem mining_errors (fuel : nat) (now : Z) (dat : JSON)
    (supplied : option JSON) (bc : Blockchain) :
  (forall msg, mineBlock fuel now dat supplied bc <> Done (Throw (Error msg))) /\
  (forall msg, setBlock fuel now dat bc <> Done (Throw (Error msg))) /\
  (mineBlock fuel now dat supplied bc = Done (Throw TypeError) <->
   chain bc = []) /\
  (setBlock fuel now dat bc = Done (Throw TypeError) <-> chain bc = []) /\
  (chain bc <> [] -> defaultDifficulty bc < 0 ->
   setBlock fuel now dat bc = Done (Throw RangeError) /\
   ((forall d, supplied = Some (JNum d) -> d <= 0) ->
    mineBlock fuel now dat supplied bc = Done (Throw RangeError))).
Proof.
  assert (getLatestBlock bc = None <-> chain bc = []) as Hempty.
  { unfold getLatestBlock. rewrite lookup_ge_None.
    destruct (chain bc); simpl; split; (discriminate || lia || auto). }
  unfold mineBlock, setBlock.
  destruct (getLatestBlock bc) as [prev|] eqn:Hprev.
  - assert (chain bc <> []) as Hne.
    { intros H. apply Hempty in H. discriminate. }
    split; [|split; [|split; [|split]]].
    + intros msg H. apply extend_no_Error in H as [H _]. discriminate.
    + intros msg H. apply extend_no_Error in H as [H _]. discriminate.
    + split; [|contradiction].
      intros H. apply extend_no_Error in H as [H _]. discriminate.
    + split; [|contradiction].
      intros H. apply extend_no_Error in H as [H _]. discriminate.
    + intros _ Hdd.
      assert (forall d, d < 0 ->
                proofOfWork fuel (index prev + 1) now dat (hash prev) d
                = Done (Throw RangeError)) as Hpow.
      { intros d Hd. unfold proofOfWork.
        rewrite String_repeat_neg by exact Hd. reflexivity. }
      split; [rewrite (Hpow _ Hdd); reflexivity|].
      intros Hnot.
      assert (mine_difficulty supplied bc = defaultDifficulty bc) as ->.
      { unfold mine_difficulty.
        destruct supplied as [[| | d | | |]|]; try reflexivity.
        specialize (Hnot d eq_refl).
        destruct (Z.ltb_spec 0 d); [lia | reflexivity]. }
      rewrite (Hpow _ Hdd). reflexivity.
  - assert (chain bc = []) as Hnil by (apply Hempty; reflexivity).
    split; [discriminate|]. split; [discriminate|].
    split; [tauto|]. split; [tauto|]. intros H. contradiction.
Qed.

Lemma mining_errors_witness :
  chain (mkBlockchain [genesis0] (-1) [genesis0]) <> [] /\
  defaultDifficulty (mkBlockchain [genesis0] (-1) [genesis0]) < 0 /\
  setBlock 5 1700000000001 JNull (mkBlockchain [genesis0] (-1) [genesis0])
  = Done (Throw RangeError) /\
  mineBlock 5 1700000000001 JNull (Some (JNum 0))
            (mkBlockchain [genesis0] (-1) [genesis0])
  = Done (Throw RangeError).
Proof.
  assert (chain (mkBlockchain [genesis0] (-1) [genesis0]) <> []) as Hne
    by discriminate.
  assert (defaultDifficulty (mkBlockchain [genesis0] (-1) [genesis0]) < 0)
    as Hd by (simpl; lia).
  split; [exact Hne|]. split; [exact Hd|].
  destruct (mining_errors 5 1700000000001 JNull (Some (JNum 0))
              (mkBlockchain [genesis0] (-1) [genesis0]))
    as (_ & _ & _ & _ & H).
  destruct (H Hne Hd) as [Hset Hmine].
  split; [exact Hset|]. apply Hmine.
  intros d Hs. inversion Hs. lia.
Defined.

(** ** What an operation does to the chain *)

Lemma mineBlock_effect (fuel : nat) (now : Z) (dat : JSON)
    (supplied : option JSON) (bc bc' : Blockchain) (b : Block) :
  mineBlock fuel now dat supplied bc = Done (Ret (b, bc')) ->
  exists prev, chain bc !! (length (chain bc) - 1)%nat = Some prev /\
               isValidNewBlock b prev = Ret true /\ bc' = save (push b bc).
Proof.
  intros H. apply mineBlock_Ret in H as (prev & Hp & _ & _ & _ & _ & _ & Hv & ->).
  exists prev. auto.
Qed.

Lemma setBlock_effect (fuel : nat) (now : Z) (dat : JSON)
    (bc bc' : Blockchain) (b : Block) :
  setBlock fuel now dat bc = Done (Ret (b, bc')) ->
  exists prev, chain bc !! (length (chain bc) - 1)%nat = Some prev /\
               isValidNewBlock b prev = Ret true /\ bc' = save (push b bc).
Proof.
  intros H. apply setBlock_Ret in H as (prev & Hp & _ & _ & _ & _ & _ & Hv & ->).
  exists prev. auto.
Qed.

Lemma receive_block_effect (b : Block) (bc : Blockchain) :
  snd (receive_block b bc) = bc \/
  exists prev, chain bc !! (length (chain bc) - 1)%nat = Some prev /\
               isValidNewBlock b prev = Ret true /\
               snd (receive_block b bc) = save (push b bc).
Proof.
  destruct (getLatestBlock bc) as [prev|] eqn:Hp.
  - rewrite (receive_block_cases b prev bc Hp).
    destruct (isValidNewBlock b prev) as [[|]|] eqn:E; simpl; auto.
    right. exists prev. auto.
  - unfold receive_block. rewrite Hp. auto.
Qed.

Lemma replaceChain_effect (cand : list Block) (bc : Blockchain) :
  replaceChain cand bc = Ret (true, save (set_chain cand bc)) /\
  (length (chain bc) < length cand)%nat /\ isChainValid cand = Ret true \/
  replaceChain cand bc = Ret (false, bc) \/
  replaceChain cand bc = Throw RangeError.
Proof.
  rewrite replaceChain_cases.
  destruct (Nat.leb_spec (length cand) (length (chain bc))); [auto|].
  destruct (isChainValid_outcome cand) as [[[|] E]|E]; rewrite E; auto.
Qed.

(** The kinds of change: none, one valid successor appended, or another
    chain that is valid and longer. *)
Lemma after_effect (op : operation) (bc bc' : Blockchain) :
  after op bc = Some bc' ->
  bc' = bc \/
  (exists prev b, chain bc !! (length (chain bc) - 1)%nat = Some prev /\
                  isValidNewBlock b prev = Ret true /\
                  bc' = save (push b bc)) \/
  (exists cand, (length (chain bc) < length cand)%nat /\
                isChainValid cand = Ret true /\
                bc' = save (set_chain cand bc)).
Proof.
  destruct op as [fuel now body | b | answers | fuel now dat | cand]; simpl.
  - unfold post_mine.
    destruct (mineBlock _ _ _ _ bc) as [[[b st]|e]|] eqn:E; try discriminate.
    + intros H. inversion H; subst.
      apply mineBlock_effect in E as (prev & Hp & Hv & ->).
      right. left. exists prev, b. auto.
    + intros H. inversion H. auto.
  - intros H. inversion H.
    destruct (receive_block_effect b bc) as [->|(prev & Hp & Hv & ->)];
      [auto|]. right. left. exists prev, b. auto.
  - intros H. inversion H. rewrite resolve_cases. simpl.
    destruct (replaceChain_effect
                (fold_left resolve_peer answers (chain bc)) bc)
      as [(-> & Hl & Hv)|[-> | ->]]; simpl; auto.
    right. right. eexists. eauto.
  - destruct (setBlock fuel now dat bc) as [[[b st]|e]|] eqn:E;
      try discriminate.
    + intros H. inversion H; subst.
      apply setBlock_effect in E as (prev & Hp & Hv & ->).
      right. left. exists prev, b. auto.
    + intros H. inversion H. auto.
  - destruct (replaceChain_effect cand bc)
      as [(-> & Hl & Hv)|[-> | ->]]; intros H; inversion H; auto.
    right. right. exists cand. auto.
Qed.

Lemma after_length (op : operation) (bc bc' : Blockchain) :
  after op bc = Some bc' -> (length (chain bc) <= length (chain bc'))%nat.
Proof.
  intros H.
  destruct (after_effect op bc bc' H)
    as [->|[(prev & b & Hp & Hv & ->)|(cand & Hl & Hv & ->)]]; simpl;
    [lia | rewrite length_app; simpl; lia | lia].
Qed.

(** X11: whatever the operation (mining on request, a pushed block, a
    resolve, setBlock, replaceChain) and however it ends, the chain
    afterwards is the chain as it was, or that chain with one valid
    successor of its last block appended, or another chain that is valid
    and longer; the default difficulty is never changed, and whenever the
    chain changes it is saved to the data file. In particular no operation
    shortens the chain. *)
Theorem operation_effect (op : operation) (bc bc' : Blockchain) :
  after op bc = Some bc' ->
  (bc' = bc \/
   (exists prev b, getLatestBlock bc = Some prev /\
                   isValidNewBlock b prev = Ret true /\
                   chain bc' = chain bc ++ [b] /\ dbFile bc' = chain bc') \/
   (isChainValid (chain bc') = Ret true /\
    (length (chain bc) < length (chain bc'))%nat /\
    dbFile bc' = chain bc')) /\
  (length (chain bc) <= length (chain bc'))%nat /\
  defaultDifficulty bc' = defaultDifficulty bc.
Proof.
  intros H.
  destruct (after_effect op bc bc' H)
    as [->|[(prev & b & Hp & Hv & ->)|(cand & Hl & Hv & ->)]]; simpl.
  - split; [auto|]. split; [lia | reflexivity].
  - split; [|split; [rewrite length_app; simpl; lia | reflexivity]].
    right. left. exists prev, b. auto.
  - split; [|split; [lia | reflexivity]]. right. right. auto.
Qed.

Lemma operation_effect_witness :
  after (OpReceive block1) node0 = Some (save (push block1 node0)) /\
  (length (chain node0) <= length (chain (save (push block1 node0))))%nat.
Proof.
  assert (after (OpReceive block1) node0 = Some (save (push block1 node0)))
    as H by (vm_compute; reflexivity).
  split; [exact H|].
  exact (proj1 (proj2 (operation_effect _ _ _ H))).
Defined.

(** ** A ledger in order stays in order *)

Lemma after_in_order (op : operation) (bc bc' : Blockchain) :
  in_order bc -> after op bc = Some bc' -> in_order bc'.
Proof.
  intros [Hv Hdb] H. unfold in_order.
  destruct (after_effect op bc bc' H)
    as [->|[(prev & b & Hp & Hb & ->)|(cand & Hl & Hc & ->)]]; simpl; auto.
  split; [|reflexivity]. eapply isChainValid_app; eassumption.
Qed.

(** X12: a ledger whose chain is valid and saved keeps a valid and saved
    chain through every run of operations, and its chain never gets
    shorter; the chain is never empty, GET /api/blocks keeps answering
    that it is valid, and GET /api/health answers with the index of the
    last block. *)
Theorem in_order_kept (ops : list operation) (bc bc' : Blockchain) :
  in_order bc -> run ops bc = Some bc' ->
  in_order bc' /\
  (length (chain bc) <= length (chain bc'))%nat /\
  (1 <= length (chain bc'))%nat /\
  get_blocks bc' = Ret (true, length (chain bc'), chain bc') /\
  exists t, getLatestBlock bc' = Some t /\ health_height bc' = Ret (index t).
Proof.
  revert bc. induction ops as [|op ops IH]; intros bc Hin; simpl.
  - intros H. inversion H; subst. split; [exact Hin|]. split; [lia|].
    destruct Hin as [Hv Hdb].
    assert (1 <= length (chain bc'))%nat as Hlen.
    { apply isChainValid_true_iff in Hv as [Hne _].
      destruct (chain bc'); [contradiction | simpl; lia]. }
    split; [exact Hlen|]. split.
    + unfold get_blocks. rewrite Hv. reflexivity.
    + destruct (lookup_lt_is_Some_2 (chain bc') (length (chain bc') - 1))
        as [t Ht]; [lia|].
      exists t. unfold health_height, getLatestBlock. rewrite Ht. auto.
  - destruct (after op bc) as [bc1|] eqn:E; [|discriminate].
    intros H. destruct (IH bc1 (after_in_order op bc bc1 Hin E) H)
      as (Hin' & Hlen & Hrest).
    split; [exact Hin'|]. split; [|exact Hrest].
    pose proof (after_length op bc bc1 E). lia.
Qed.

Lemma in_order_kept_witness :
  in_order node0 /\
  run [OpMine 100 1700000000001
              (JObj [("data"%string, JObj [("msg"%string, JStr "a")]);
                     ("difficulty"%string, JNum 1)]);
       OpReceive block2; OpResolve [Some shadow3; None];
       OpReceive stray2] node0
  = Some node2 /\
  in_order node2.
Proof.
  assert (in_order node0) as H0 by (split; vm_compute; reflexivity).
  assert (run [OpMine 100 1700000000001
                      (JObj [("data"%string, JObj [("msg"%string, JStr "a")]);
                             ("difficulty"%string, JNum 1)]);
               OpReceive block2; OpResolve [Some shadow3; None];
               OpReceive stray2] node0
          = Some node2) as Hrun by (vm_compute; reflexivity).
  split; [exact H0|]. split; [exact Hrun|].
  exact (proj1 (in_order_kept _ _ _ H0 Hrun)).
Defined.


(** ** What resolve installs *)

Lemma isChainValid_loop_throw (s : list Block) (e : exn) (n i : nat) :
  (i + n = length s)%nat -> (1 <= i)%nat ->
  isChainValid_loop s i n = Throw e ->
  exists j c p, s !! j = Some c /\ s !! (j - 1)%nat = Some p /\
                (1 <= j)%nat /\ isValidNewBlock c p = Throw e.
Proof.
  revert i. induction n as [|n IH]; intros i Hlen Hi; simpl; [discriminate|].
  destruct (lookup_lt_is_Some_2 s i) as [cur Hcur]; [lia|].
  destruct (lookup_lt_is_Some_2 s (i - 1)) as [prev Hprev]; [lia|].
  rewrite Hcur, Hprev.
  destruct (isValidNewBlock cur prev) as [[|]| e'] eqn:E; simpl.
  - apply IH; lia.
  - discriminate.
  - intros H. inversion H; subst e'. exists i, cur, prev. auto.
Qed.

Lemma passes_resolve_check_no_throw (c : list Block) (e : exn) :
  c <> [] -> passes_resolve_check c -> isChainValid c <> Throw e.
Proof.
  intros Hne Hchk Hthrow.
  rewrite (passes_resolve_check_iff c Hne) in Hchk.
  unfold isChainValid in Hthrow. destruct c as [|g r]; [contradiction|].
  simpl in Hthrow.
  apply isChainValid_loop_throw in Hthrow
    as (j & x & p & Hx & Hp & Hj & Hxp); [|simpl; lia | lia].
  apply isValidNewBlock_throw in Hxp as (_ & Hd & _).
  specialize (Hchk j x p Hj Hx Hp).
  apply resolve_pair_true_iff in Hchk. lia.
Qed.

Lemma isChainValid_passes (c : list Block) :
  isChainValid c = Ret true -> passes_resolve_check c.
Proof. intros H. apply isChainValid_resolve_check in H. tauto. Qed.

Lemma resolve_outcome (answers : list (option (list Block)))
    (bc : Blockchain) :
  resolve answers bc = (Resolved false (length (chain bc)), bc) \/
  exists c,
    In (Some c) answers /\ isChainValid c = Ret true /\
    (length (chain bc) < length c)%nat /\
    (forall c', In (Some c') answers -> isChainValid c' = Ret true ->
                (length c' <= length c)%nat) /\
    resolve answers bc
    = (Resolved true (length c), mkBlockchain c (defaultDifficulty bc) c).
Proof.
  rewrite resolve_cases.
  pose proof (bestChain_spec answers (chain bc)) as Hbest. simpl in Hbest.
  set (best := fold_left resolve_peer answers (chain bc)) in *.
  destruct Hbest as (Hcase & Hlen & Hmax). simpl.
  rewrite replaceChain_cases.
  destruct (Nat.leb_spec (length best) (length (chain bc))) as [Hle|Hlt];
    [left; reflexivity|].
  destruct Hcase as [Heq|(Hin & Hok & _)]; [rewrite Heq in Hlt; lia|].
  assert (best <> []) as Hne by (intros E; rewrite E in Hlt; simpl in Hlt; lia).
  destruct (isChainValid_outcome best) as [[[|] E]|E]; rewrite E.
  - right. exists best. split; [exact Hin|]. split; [exact E|].
    split; [exact Hlt|]. split; [|reflexivity].
    intros c' Hc' Hv'. apply Hmax; [exact Hc' | apply isChainValid_passes, Hv'].
  - left. reflexivity.
  - exfalso. exact (passes_resolve_check_no_throw best _ Hne Hok E).
Qed.

(** X13: POST /api/resolve answers 200 in every case. Either it reports no
    replacement and the ledger is as before, or it has installed and saved
    one of the chains that the peers answered with, and that chain passes
    isChainValid, is longer than the chain it replaces and is at least as
    long as every valid chain among the answers; the length it reports is
    that of the chain it leaves. *)
Theorem resolve_installs (answers : list (option (list Block)))
    (bc : Blockchain) :
  resolve answers bc = (Resolved false (length (chain bc)), bc) \/
  exists c,
    In (Some c) answers /\ isChainValid c = Ret true /\
    (length (chain bc) < length c)%nat /\
    (forall c', In (Some c') answers -> isChainValid c' = Ret true ->
                (length c' <= length c)%nat) /\
    resolve answers bc
    = (Resolved true (length c), mkBlockchain c (defaultDifficulty bc) c).
Proof. exact (resolve_outcome answers bc). Qed.

(** X14: when every answer that passes the test written in the resolve
    handler is a valid chain, and some answer is a valid chain longer than
    the local one, resolve installs a valid chain from the answers that is
    as long as the longest valid one. *)
Theorem resolve_adopts_longest_valid (answers : list (option (list Block)))
    (bc : Blockchain) :
  (forall c, In (Some c) answers -> passes_resolve_check c ->
             isChainValid c = Ret true) ->
  (exists c, In (Some c) answers /\ isChainValid c = Ret true /\
             (length (chain bc) < length c)%nat) ->
  exists c,
    In (Some c) answers /\ isChainValid c = Ret true /\
    (forall c', In (Some c') answers -> isChainValid c' = Ret true ->
                (length c' <= length c)%nat) /\
    resolve answers bc
    = (Resolved true (length c), mkBlockchain c (defaultDifficulty bc) c).
Proof.
  intros Hgood Hex.
  apply (resolve_replaces_iff answers bc Hgood) in Hex as (n & bc' & Hres).
  destruct (resolve_outcome answers bc)
    as [Hno|(c & Hin & Hv & _ & Hmax & Hyes)]; [congruence|].
  exists c. auto.
Qed.

Lemma resolve_adopts_longest_valid_witness :
  (forall c, In (Some c) [Some good3; None] -> passes_resolve_check c ->
             isChainValid c = Ret true) /\
  (exists c, In (Some c) [Some good3; None] /\ isChainValid c = Ret true /\
             (length (chain node0) < length c)%nat) /\
  exists c,
    In (Some c) [Some good3; None] /\ isChainValid c = Ret true /\
    (forall c', In (Some c') [Some good3; None] ->
                isChainValid c' = Ret true -> (length c' <= length c)%nat) /\
    resolve [Some good3; None] node0
    = (Resolved true (length c),
       mkBlockchain c (defaultDifficulty node0) c).
Proof.
  assert (isChainValid good3 = Ret true) as Hv by (vm_compute; reflexivity).
  assert (forall c, In (Some c) [Some good3; None] ->
                    passes_resolve_check c -> isChainValid c = Ret true)
    as Hgood.
  { intros c [Hc|[Hc|[]]] _; [|discriminate]. inversion Hc; subst. exact Hv. }
  assert (exists c, In (Some c) [Some good3; None] /\
                    isChainValid c = Ret true /\
                    (length (chain node0) < length c)%nat) as Hex.
  { exists good3. split; [left; reflexivity|]. split; [exact Hv|].
    simpl. lia. }
  split; [exact Hgood|]. split; [exact Hex|].
  exact (resolve_adopts_longest_valid [Some good3; None] node0 Hgood Hex).
Defined.

(** ** Gossip between nodes *)

Lemma lookup_map {A B : Type} (f : A -> B) (l : list A) (i : nat) :
  map f l !! i = match l !! i with
                 | Some x => Some (f x)
                 | None => None
                 end.
Proof.
  revert i. induction l as [|a l IH]; intros [|i]; simpl; try reflexivity.
  apply IH.
Qed.

Lemma receive_block_next (b : Block) (bc : Blockchain) (t : Block) :
  getLatestBlock bc = Some t -> index t + 1 <> index b ->
  receive_block b bc = (Rejected, bc).
Proof.
  intros Ht Hi. rewrite (receive_block_cases b t bc Ht).
  unfold isValidNewBlock.
  destruct (Z.eqb_spec (index t + 1) (index b)); [contradiction|].
  reflexivity.
Qed.

(** X15: a block that a node has mined is adopted by every peer whose last
    block is the last block the miner had: the broadcast leaves such a peer
    with the block appended and saved, and a peer that had the chain of the
    miner has the new chain of the miner; a peer that cannot be reached
    stays as it is. A second delivery of the block is rejected, as is a
    delivery to the miner itself. *)
Theorem gossip_adopted (fuel : nat) (now : Z) (dat : JSON)
    (supplied : option JSON) (miner miner' : Blockchain) (b : Block)
    (network : list (option Blockchain)) :
  mineBlock fuel now dat supplied miner = Done (Ret (b, miner')) ->
  length (broadcastNewBlock b network) = length network /\
  (forall i peer,
     network !! i = Some (Some peer) ->
     getLatestBlock peer = getLatestBlock miner ->
     broadcastNewBlock b network !! i = Some (Some (save (push b peer))) /\
     receive_block b peer = (Adopted (index b), save (push b peer)) /\
     receive_block b (save (push b peer)) = (Rejected, save (push b peer)) /\
     (chain peer = chain miner ->
      chain (save (push b peer)) = chain miner')) /\
  (forall i, network !! i = Some None ->
             broadcastNewBlock b network !! i = Some None) /\
  receive_block b miner' = (Rejected, miner').
Proof.
  intros Hmine.
  apply mineBlock_Ret in Hmine
    as (prev & Hprev & _ & _ & _ & _ & _ & Hv & ->).
  assert (forall bc, receive_block b (save (push b bc))
                     = (Rejected, save (push b bc))) as Htwice.
  { intros bc. apply (receive_block_next b _ b);
      [apply getLatestBlock_push | lia]. }
  split; [apply length_map|]. split; [|split].
  - intros i peer Hi Htip.
    assert (receive_block b peer = (Adopted (index b), save (push b peer)))
      as Hrecv.
    { rewrite (receive_block_cases b prev peer) by congruence.
      rewrite Hv. reflexivity. }
    split.
    { unfold broadcastNewBlock. rewrite lookup_map, Hi. simpl.
      rewrite Hrecv. reflexivity. }
    split; [exact Hrecv|]. split; [apply Htwice|].
    intros Hc. simpl. rewrite Hc. reflexivity.
  - intros i Hi. unfold broadcastNewBlock. rewrite lookup_map, Hi.
    reflexivity.
  - apply Htwice.
Qed.

Lemma gossip_adopted_witness :
  mineBlock 100 1700000000001 (JObj [("msg"%string, JStr "a")])
            (Some (JNum 1)) node0
  = Done (Ret (block1, save (push block1 node0))) /\
  broadcastNewBlock block1 [Some node0; None; Some node2] !! 0%nat
  = Some (Some (save (push block1 node0))) /\
  broadcastNewBlock block1 [Some node0; None; Some node2] !! 1%nat
  = Some None.
Proof.
  assert (mineBlock 100 1700000000001 (JObj [("msg"%string, JStr "a")])
                    (Some (JNum 1)) node0
          = Done (Ret (block1, save (push block1 node0)))) as Hrun
    by (vm_compute; reflexivity).
  split; [exact Hrun|].
  destruct (gossip_adopted _ _ _ _ _ _ _ [Some node0; None; Some node2] Hrun)
    as (_ & Hadopt & Hnone & _).
  split.
  - exact (proj1 (Hadopt 0%nat node0 eq_refl eq_refl)).
  - exact (Hnone 1%nat eq_refl).
Defined.

(** X16: a peer that has missed blocks is not helped by the gossip of the
    next one: a pushed block whose index is not the one after the tip of
    the peer is rejected and the peer is unchanged; a resolve against a
    node whose chain is valid and longer installs that chain. *)
Theorem missed_block_then_resolve (b t : Block) (peer : Blockchain)
    (ahead : list Block) :
  getLatestBlock peer = Some t -> index t + 1 <> index b ->
  isChainValid ahead = Ret true ->
  (length (chain peer) < length ahead)%nat ->
  receive_block b peer = (Rejected, peer) /\
  resolve [Some ahead] peer
  = (Resolved true (length ahead),
     mkBlockchain ahead (defaultDifficulty peer) ahead).
Proof.
  intros Ht Hi Hv Hlen.
  split; [exact (receive_block_next b peer t Ht Hi)|].
  destruct (resolve_outcome [Some ahead] peer)
    as [Hno|(c & [Hc|[]] & _ & _ & _ & Hyes)].
  - exfalso.
    assert (exists n bc', resolve [Some ahead] peer = (Resolved true n, bc'))
      as (n & bc' & H); [|congruence].
    apply resolve_replaces_iff.
    + intros c [Hc|[]] _. inversion Hc; subst. exact Hv.
    + exists ahead. split; [left; reflexivity | auto].
  - inversion Hc; subst c. exact Hyes.
Qed.

Lemma missed_block_then_resolve_witness :
  getLatestBlock node0 = Some genesis0 /\
  index genesis0 + 1 <> index block2 /\
  isChainValid good3 = Ret true /\
  (length (chain node0) < length good3)%nat /\
  receive_block block2 node0 = (Rejected, node0) /\
  resolve [Some good3] node0 = (Resolved true 3%nat, node2).
Proof.
  assert (isChainValid good3 = Ret true) as Hv by (vm_compute; reflexivity).
  assert (index genesis0 + 1 <> index block2) as Hi by (simpl; lia).
  assert (length (chain node0) < length good3)%nat as Hl by (simpl; lia).
  split; [reflexivity|]. split; [exact Hi|]. split; [exact Hv|].
  split; [exact Hl|].
  exact (missed_block_then_resolve block2 genesis0 node0 good3
           eq_refl Hi Hv Hl).
Defined.

(** ** The constructor *)

(** X17: started without a data file (or with a file that holds no
    block), the constructor leaves a chain of one block, saved, which is
    valid: the block has index 0, difficulty 1, the time given, 64 zeros as
    prevHash, and a hash that is the digest of its fields and starts with a
    zero; it returns as soon as the fuel covers a nonce that meets the
    target. Started with a file that holds blocks, it takes them as they
    are, mines nothing and checks nothing. *)
Theorem new_Blockchain_spec (now dd : Z) :
  (forall fuel stored bc,
     stored = None \/ stored = Some [] ->
     new_Blockchain fuel now stored dd = Done (Ret bc) ->
     exists g,
       bc = mkBlockchain [g] dd [g] /\ in_order bc /\
       index g = 0 /\ timestamp g = now /\ difficulty g = 1 /\
       prevHash g = repeat_string "0" 64 /\
       hash g = calculateHash_of g /\
       (1 <= leading_zeros (hash g))%nat) /\
  (forall fuel n0,
     0 <= n0 ->
     meets_target 0 now
       (JObj [("type"%string, JStr "GENESIS");
              ("note"%string, JStr "Decentralized genesis")])
       (repeat_string "0" 64) 1 n0 ->
     (Z.to_nat n0 < fuel)%nat ->
     exists bc, new_Blockchain fuel now None dd = Done (Ret bc)) /\
  (forall fuel b s,
     new_Blockchain fuel now (Some (b :: s)) dd
     = Done (Ret (mkBlockchain (b :: s) dd (b :: s)))).
Proof.
  split; [|split].
  - intros fuel stored bc Hstored.
    assert (new_Blockchain fuel now stored dd
            = new_Blockchain fuel now None dd) as ->
      by (destruct Hstored as [-> | ->]; reflexivity).
    unfold new_Blockchain, createGenesisBlock. simpl.
    destruct (proofOfWork fuel 0 now _ _ 1) as [[[n h]|]|] eqn:E; simpl;
      try discriminate.
    intros H. inversion H; subst bc. clear H.
    pose proof (proofOfWork_Ret _ _ _ _ _ _ _ _ E) as (_ & _ & Hh & Hz).
    eexists. split; [reflexivity|]. simpl.
    split; [split; reflexivity|].
    repeat (split; [reflexivity|]). split; [exact Hh | lia].
  - intros fuel n0 Hn0 Hmeet Hfuel.
    destruct (proofOfWork_returns _ _ _ _ _ _ (Z.le_0_1) Hn0 Hmeet)
      as (n & Hn & _ & _ & Hret & _).
    unfold new_Blockchain, createGenesisBlock. simpl.
    rewrite Hret by lia. simpl. eexists. reflexivity.
  - reflexivity.
Qed.

Lemma new_Blockchain_spec_witness :
  new_Blockchain 100 1700000000000 None 3 = Done (Ret node0) /\
  exists g, node0 = mkBlockchain [g] 3 [g] /\ in_order node0 /\ index g = 0.
Proof.
  assert (new_Blockchain 100 1700000000000 None 3 = Done (Ret node0)) as H
    by (vm_compute; reflexivity).
  split; [exact H|].
  destruct (new_Blockchain_spec 1700000000000 3) as (Hfresh & _).
  destruct (Hfresh 100%nat None node0 (or_introl eq_refl) H)
    as (g & Hg & Hin & Hi & _).
  exists g. auto.
Defined.

(** ** What the digest commits to *)


(** ** The shape of a valid chain *)



(** ** POST /api/mine *)


